(** * MaxLikelihoodModel: an unsmoothed maximum-likelihood character model

    A shallow embedding of the two functions of [MaxLikelihoodModel.ipynb],
    [train_char_lm] (with its local [normalize]) and [generate_letter] /
    [generate_text], together with the Python primitives they rely on:
    string slicing and indexing with negative indices, [defaultdict(Counter)]
    counting, true division of an [int] by a [float], and the uniform
    [random()] source.

    - A [str] is a list of characters, and a character is an [ascii]; nothing
      depends on the alphabet beyond the equality of characters. The length of
      a [str] is at most [sys.maxsize].
    - An [int] is a [Z]. A [float] is IEEE-754 binary64: Rocq's primitive
      [float] with the operations of [PrimFloat], whose meaning is given by
      [SpecFloat] through [FloatAxioms].
    - A [Counter] lists its pairs in insertion order, as a [dict] does, since
      that order is the order in which [generate_letter] walks a distribution.
      The tables [lm] and [outlm] are only ever looked up by key and are
      finite maps.
    - An exception ends the run: a function returns its value or the
      exception raised. [random()] reads the next value of a recorded sequence
      of draws. *)

From Stdlib Require Import ZArith QArith Qabs Lia Ascii String Floats Uint63.
From stdpp Require Import base option list list_numbers gmap strings.

#[local] Open Scope Z_scope.

(** ** Python values and exceptions *)

(** A Python [str] is a sequence of characters. *)
Abbreviation pystr := (list ascii).

(** The padding character of the model. *)
Definition sentinel : ascii := "~"%char.

(** The exceptions the modelled code can raise. *)
Inductive pyexn : Set :=
| IndexError | KeyError | TypeError | ZeroDivisionError | OverflowError.

(** The outcome of running a piece of Python: a value, or an exception. *)
Inductive res (A : Type) : Type :=
| Ok (a : A)
| Raise (e : pyexn).
Arguments Ok {A} a.
Arguments Raise {A} e.

#[global] Instance res_ret : MRet res := @Ok.
#[global] Instance res_bind : MBind res := λ A B f m,
  match m with Ok a => f a | Raise e => Raise e end.
#[global] Instance res_fmap : FMap res := λ A B f m,
  match m with Ok a => Ok (f a) | Raise e => Raise e end.

(** A [for] loop over [xs] whose body may raise: the loop state is threaded
    through and the first exception ends the loop. *)
Fixpoint for_each {A S : Type} (body : S → A → res S) (xs : list A) (s : S) : res S :=
  match xs with
  | [] => Ok s
  | x :: xs' => s' ← body s x; for_each body xs' s'
  end.

(** ** Sequences: [len], [range], [*], slices and indexing *)

Definition py_len {A : Type} (s : list A) : Z := Z.of_nat (length s).

(** [range(n)]: [0, 1, ..., n-1], empty when [n <= 0]. *)
Definition py_range (n : Z) : list Z := seqZ 0 n.

(** [c * n] for a one-character string [c]: empty when [n <= 0]. *)
Definition py_str_mul (c : ascii) (n : Z) : pystr := replicate (Z.to_nat n) c.

(** How a slice bound is brought into [0 .. len]: a negative bound counts from
    the end, and both kinds are clipped. *)
Definition slice_bound (len i : Z) : Z :=
  if i <? 0 then Z.max (i + len) 0 else Z.min i len.

(** [s[lo:hi]] *)
Definition py_slice {A : Type} (s : list A) (lo hi : Z) : list A :=
  let a := slice_bound (py_len s) lo in
  let b := slice_bound (py_len s) hi in
  take (Z.to_nat (b - a)) (drop (Z.to_nat a) s).

(** [s[lo:]] *)
Definition py_slice_from {A : Type} (s : list A) (lo : Z) : list A :=
  drop (Z.to_nat (slice_bound (py_len s) lo)) s.

(** [s[i]]: a negative index counts from the end; out of range raises. *)
Definition py_index {A : Type} (s : list A) (i : Z) : res A :=
  let j := if i <? 0 then i + py_len s else i in
  if j <? 0 then Raise IndexError
  else match s !! Z.to_nat j with
       | Some x => Ok x
       | None => Raise IndexError
       end.

(** ** Floats: [float(n)] and [n / s] *)

(** The binary64 value nearest to the integer [n] (ties to even). *)
Definition Z2F (n : Z) : float := SF2Prim (binary_normalize prec emax n 0 false).

(** [float(n)]: raises when [n] is too large to be a finite float. *)
Definition py_float (n : Z) : res float :=
  let f := Z2F n in
  if is_infinity f then Raise OverflowError else Ok f.

(** [n / s] for an [int] n and a [float] s: n is converted, then divided. *)
Definition py_truediv (n : Z) (s : float) : res float :=
  a ← py_float n;
  if (s =? 0)%float then Raise ZeroDivisionError else Ok (a / s)%float.

(** ** [Counter]: a dict from characters to counts, in insertion order *)

(** [Counter.items()] lists the pairs in the order the keys were first set,
    and that order is the order of the pairs of a distribution. *)
Abbreviation Counter := (list (ascii * Z)).

(** [counter[c]]: a missing key reads as 0 and is not inserted. *)
Fixpoint counter_get (c : ascii) (cnt : Counter) : Z :=
  match cnt with
  | [] => 0
  | (k, v) :: rest => if decide (k = c) then v else counter_get c rest
  end.

(** [counter[c] = v]: an existing key keeps its place, a new one goes last. *)
Fixpoint counter_set (c : ascii) (v : Z) (cnt : Counter) : Counter :=
  match cnt with
  | [] => [(c, v)]
  | (k, w) :: rest =>
      if decide (k = c) then (k, v) :: rest else (k, w) :: counter_set c v rest
  end.

(** [counter[c] += 1] *)
Definition counter_incr (c : ascii) (cnt : Counter) : Counter :=
  counter_set c (counter_get c cnt + 1) cnt.

(** [sum(counter.values())] *)
Definition counter_total (cnt : Counter) : Z := foldr Z.add 0 cnt.*2.

(** ** Training *)

(** A distribution: (character, probability) pairs. *)
Abbreviation Dist := (list (ascii * float)).

(** The local function [normalize] of [train_char_lm]. *)
Definition normalize (counter : Counter) : res Dist :=
  s ← py_float (counter_total counter);
  mapM (M := res) (λ '(c, cnt), p ← py_truediv cnt s; Ok (c, p)) counter.

(** [lm[history][char] += 1] for [lm = defaultdict(Counter)]: a missing
    history is first bound to an empty [Counter]. *)
Definition lm_incr (history : pystr) (char : ascii)
    (lm : gmap pystr Counter) : gmap pystr Counter :=
  <[history := counter_incr char (default [] (lm !! history))]> lm.

(** The dict comprehension [{hist: f(chars) for hist, chars in lm.items()}]. *)
Definition dict_comprehension {V W : Type} (f : V → res W)
    (m : gmap pystr V) : res (gmap pystr W) :=
  map_fold (λ k v acc, out ← acc; w ← f v; Ok (<[k := w]> out)) (Ok ∅) m.

(** [train_char_lm], applied to the contents of the file [fname]. *)
Definition train_char_lm (contents : pystr) (order : Z) : res (gmap pystr Dist) :=
  let data := contents in
  let pad := py_str_mul sentinel order in
  let data := pad ++ data in
  lm ← for_each
         (λ lm i,
            let history := py_slice data i (i + order) in
            char ← py_index data (i + order);
            Ok (lm_incr history char lm))
         (py_range (py_len data - order)) ∅;
  dict_comprehension normalize lm.

(** ** Generation *)

(** The random source: a recorded, unending sequence of uniform draws, and the
    number of draws consumed so far. *)
Record rng : Type := Rng { draws : nat → float; used : nat }.

(** [random()]: the next draw; the source advances by one. *)
Definition random (g : rng) : float * rng :=
  (draws g (used g), Rng (draws g) (S (used g))).

(** The loop of [generate_letter] over the pairs of [dist]: [Some c] is
    [return c]; [None] is the loop running out, after which the function
    returns Python's [None]. *)
Fixpoint sample (dist : Dist) (x : float) : option ascii :=
  match dist with
  | [] => None
  | (c, v) :: rest =>
      let x := (x - v)%float in
      if (x <=? 0)%float then Some c else sample rest x
  end.

(** The running values of that loop: [x] after each subtraction. *)
Fixpoint running_values (dist : Dist) (x : float) : list float :=
  match dist with
  | [] => []
  | (_, v) :: rest => (x - v)%float :: running_values rest (x - v)%float
  end.

(** [generate_letter]: the result is a character or [None]; a history that
    is not a key of the (plain) dict [lm] raises. *)
Definition generate_letter (lm : gmap pystr Dist) (history : pystr) (order : Z)
    (g : rng) : res (option ascii * rng) :=
  let history := py_slice_from history (- order) in
  match lm !! history with
  | None => Raise KeyError
  | Some dist =>
      let '(x, g) := random g in
      Ok (sample dist x, g)
  end.

(** The variables of the loop of [generate_text]. *)
Record gen_state : Type := GenState {
  gs_history : pystr;
  gs_out : list ascii;
  gs_rng : rng
}.

(** One iteration of that loop; [history[-order:] + c] raises when [c] is
    [None]. *)
Definition generate_step (lm : gmap pystr Dist) (order : Z)
    (st : gen_state) : res gen_state :=
  '(c, g) ← generate_letter lm (gs_history st) order (gs_rng st);
  match c with
  | None => Raise TypeError
  | Some c =>
      Ok (GenState (py_slice_from (gs_history st) (- order) ++ [c])
                   (gs_out st ++ [c]) g)
  end.

(** The state after the iterations [range(n)], from the initial state. *)
Definition generate_loop (lm : gmap pystr Dist) (order n : Z)
    (g : rng) : res gen_state :=
  for_each (λ st _, generate_step lm order st) (py_range n)
           (GenState (py_str_mul sentinel order) [] g).

(** [generate_text]: the joined output, and the random source afterwards. *)
Definition generate_text (lm : gmap pystr Dist) (order nletters : Z)
    (g : rng) : res (pystr * rng) :=
  st ← generate_loop lm order nletters g;
  Ok (gs_out st, gs_rng st).

(** The notebook's cells: train on a corpus, then generate from the table. *)
Definition train_and_generate (contents : pystr) (order nletters : Z)
    (g : rng) : res (pystr * rng) :=
  lm ← train_char_lm contents order;
  generate_text lm order nletters g.

(** ** The reference table: count and normalize

    The table as the specification describes it, to be compared with what
    [train_char_lm] returns. Positions, counts and totals are natural
    numbers here. *)

(** The corpus left-padded with [order] sentinel characters. *)
Definition ref_padded (corpus : pystr) (order : nat) : pystr :=
  replicate order sentinel ++ corpus.

(** The transition observed at position [i] of the padded stream: the
    [order] characters before [i], and the character at [i]. *)
Definition ref_transition (padded : pystr) (order i : nat) : option (pystr * ascii) :=
  c ← padded !! i; Some (take order (drop (i - order) padded), c).

(** The transitions at the positions [order <= i < length], in order. *)
Definition ref_transitions (corpus : pystr) (order : nat) : list (pystr * ascii) :=
  let padded := ref_padded corpus order in
  omap (ref_transition padded order) (seq order (length padded - order)).

(** The characters observed after the history [h], in order of observation. *)
Definition ref_observed (corpus : pystr) (order : nat) (h : pystr) : list ascii :=
  (filter (λ t, t.1 = h) (ref_transitions corpus order)).*2.

(** How often [c] was observed after [h], and how often anything was. *)
Definition ref_count (corpus : pystr) (order : nat) (h : pystr) (c : ascii) : nat :=
  length (filter (λ c', c' = c) (ref_observed corpus order h)).

Definition ref_total (corpus : pystr) (order : nat) (h : pystr) : nat :=
  length (ref_observed corpus order h).

(** The distinct elements of a list, each at its first occurrence. *)
Fixpoint distinct {A : Type} `{EqDecision A} (l : list A) : list A :=
  match l with
  | [] => []
  | x :: l' => x :: filter (λ y, y ≠ x) (distinct l')
  end.

(** The distribution of [h]: one pair per distinct observed successor, its
    count divided by the total of [h]. *)
Definition ref_dist (corpus : pystr) (order : nat) (h : pystr) : Dist :=
  (λ c, (c, (Z2F (Z.of_nat (ref_count corpus order h c))
             / Z2F (Z.of_nat (ref_total corpus order h)))%float))
  <$> distinct (ref_observed corpus order h).

(** The reference table: a history with no observed transition is absent. *)
Definition ref_table (corpus : pystr) (order : nat) (h : pystr) : option Dist :=
  if decide (ref_total corpus order h = 0%nat) then None
  else Some (ref_dist corpus order h).

(** CPython's bound on the length of a [str] (and of any sequence). *)
Definition sys_maxsize : Z := 2 ^ 63 - 1.

(** ** Rounding, as [SpecFloat] computes it

    The definitions below describe what the division of [normalize] returns;
    they are used to state and prove facts about the probabilities, not to
    compute them. *)

(** The second half of [binary_round_aux]: a 53-bit mantissa [m] with the
    location [l] of the exact value above it is rounded, and a mantissa that
    rounding brought up to [2^53] is renormalized. *)
Definition round_carry (m e : Z) : Z * Z :=
  if m =? 2 ^ 53 then (2 ^ 52, e + 1) else (m, e).

Definition round_finish (m : Z) (l : location) (e : Z) : Z * Z :=
  round_carry (round_nearest_even m l) e.

(** The location of [N / D] above the integer [q]: where the remainder
    [N - q * D] lies in [0, D). *)
Definition loc_of (N D q : Z) : location :=
  if N - q * D =? 0 then loc_Exact else loc_Inexact (2 * (N - q * D) ?= D).

(** [m] is [N / D] rounded to the nearest integer, ties to even. *)
Definition is_rne (N D m : Z) : Prop :=
  2 * Z.abs (m * D - N) ≤ D ∧ (2 * Z.abs (m * D - N) = D → Z.even m = true).

(** The binary64 float [m * 2^e] is the quotient [a / b] rounded to nearest,
    ties to even: scaled by [2^t] the quotient lies in [2^52, 2^53), and the
    mantissa is its rounding. *)
Definition is_rounding (a b m e : Z) : Prop :=
  ∃ t m0, 0 ≤ t ∧ 2 ^ 52 * b ≤ a * 2 ^ t < 2 ^ 53 * b ∧
          is_rne (a * 2 ^ t) b m0 ∧ (m, e) = round_carry m0 (- t).

(** The integer a positive integer below [2^63] is rounded to by [float]:
    itself below [2^53], and otherwise the nearest multiple of [2^n] that has
    53 significant bits, ties to even, with [n = log2 z - 52]. *)
Definition round_int (z : Z) : Z :=
  if z <? 2 ^ 53 then z
  else let n := Z.log2 z - 52 in
       round_nearest_even (z / 2 ^ n) (loc_of z (2 ^ n) (z / 2 ^ n)) * 2 ^ n.

(** The rational value of a float; zero for infinities and NaN. *)
Definition SF2Q (x : spec_float) : Q :=
  match x with
  | S754_finite s m e =>
      let v := if 0 <=? e then inject_Z (Z.pos m * 2 ^ e)
               else Z.pos m # Z.to_pos (2 ^ (- e)) in
      if s then Qopp v else v
  | _ => 0%Q
  end.

Definition F2Q (f : float) : Q := SF2Q (Prim2SF f).

(** The exact sum of the probabilities of a distribution. *)
Definition dist_sum (dist : Dist) : Q := foldr (λ cp acc, (F2Q cp.2 + acc)%Q) 0%Q dist.

(** Every raw count of a counter multiplied by [k]. *)
Definition scale_counts (k : Z) (cnt : Counter) : Counter :=
  (λ '(c, n), (c, k * n)) <$> cnt.

(** ** Example inputs *)

(** Strings of the examples. *)
Definition str (s : string) : pystr := list_ascii_of_string s.

(** A corpus in which [x] is followed by [a] once, [b] three times, [c] once
    and [d] four times. *)
Definition corpus_x : pystr := str "xaxbxbxbxcxdxdxdxd".

(** The largest value [random()] can return, [1 - 2^-53]. *)
Definition draw_max : float := 0x1.fffffffffffffp-1%float.

(** A recorded source whose first draw is [0.5] and whose later draws are
    [draw_max]. *)
Definition rng_x : rng :=
  Rng (λ n, match n with O => 0.5%float | _ => draw_max end) 0.

(** A recorded source that always draws [0.5]. *)
Definition rng_half : rng := Rng (λ _, 0.5%float) 0.

(** The table trained on ["ab"] at order 1, written out. *)
Definition lm_ab : gmap pystr Dist :=
  {[ str "~" := [("a"%char, 1%float)]; str "a" := [("b"%char, 1%float)] ]}.

(** A counter with one very large count; its total is just below [2^53]. *)
Definition counter_big : Counter := [("a"%char, 5); ("b"%char, 9007199254740937)].

(** The first probability of the result of [normalize]. *)
Definition first_probability (r : res Dist) : float :=
  match r with
  | Ok ((_, p) :: _) => p
  | _ => 0%float
  end.

(** ** Facts about loops and slices *)

Lemma for_each_app {A S : Type} (body : S → A → res S) (xs ys : list A) (s : S) :
  for_each body (xs ++ ys) s = s' ← for_each body xs s; for_each body ys s'.
Proof.
  revert s. induction xs as [|x xs IH]; intros s; simpl; [done|].
  destruct (body s x) as [s'|e]; simpl; [apply IH | done].
Qed.

Lemma py_range_succ (n : Z) : 0 ≤ n → py_range (n + 1) = py_range n ++ [n].
Proof.
  intros Hn. unfold py_range. rewrite seqZ_app by lia.
  rewrite (seqZ_cons _ 1) by lia. rewrite (seqZ_nil _ (Z.pred 1)) by lia.
  by rewrite Z.add_0_l.
Qed.

(** For a positive [order], [history[-order:]] is the last [order] characters
    (all of them when there are fewer). *)
Lemma py_slice_from_last {A : Type} (s : list A) (order : Z) :
  1 ≤ order →
  py_slice_from s (- order) = drop (length s - Z.to_nat order) s.
Proof.
  intros Ho. unfold py_slice_from, slice_bound, py_len.
  destruct (Z.ltb_spec (- order) 0); [|lia]. f_equal. lia.
Qed.

Lemma py_slice_from_last_len {A : Type} (s : list A) (order : Z) :
  1 ≤ order → py_len (py_slice_from s (- order)) = Z.min (py_len s) order.
Proof.
  intros Ho. rewrite py_slice_from_last by done. unfold py_len.
  rewrite length_drop. lia.
Qed.

Lemma py_slice_from_idemp {A : Type} (s : list A) (order : Z) :
  1 ≤ order →
  py_slice_from (py_slice_from s (- order)) (- order) = py_slice_from s (- order).
Proof.
  intros Ho. rewrite !py_slice_from_last by done.
  rewrite length_drop, drop_drop. f_equal. lia.
Qed.

(** Lengths. *)
Lemma py_len_app {A : Type} (s t : list A) : py_len (s ++ t) = py_len s + py_len t.
Proof. unfold py_len. rewrite length_app. lia. Qed.

Lemma py_len_str_mul (c : ascii) (n : Z) : py_len (py_str_mul c n) = Z.max n 0.
Proof. unfold py_len, py_str_mul. rewrite length_replicate. lia. Qed.

(** ** The generation loop, one iteration at a time *)

Lemma generate_loop_0 lm order g :
  generate_loop lm order 0 g = Ok (GenState (py_str_mul sentinel order) [] g).
Proof. reflexivity. Qed.

Lemma generate_loop_succ lm order n g :
  0 ≤ n →
  generate_loop lm order (n + 1) g
  = st ← generate_loop lm order n g; generate_step lm order st.
Proof.
  intros Hn. unfold generate_loop. rewrite py_range_succ by done.
  rewrite for_each_app.
  destruct (for_each _ (py_range n) _) as [st|e]; simpl; [|done].
  by destruct (generate_step lm order st).
Qed.

(** What one successful iteration does to the loop variables. *)
Lemma generate_step_ok lm order st st' :
  generate_step lm order st = Ok st' →
  ∃ dist c,
    lm !! py_slice_from (gs_history st) (- order) = Some dist ∧
    sample dist (draws (gs_rng st) (used (gs_rng st))) = Some c ∧
    gs_history st' = py_slice_from (gs_history st) (- order) ++ [c] ∧
    gs_out st' = gs_out st ++ [c] ∧
    gs_rng st' = Rng (draws (gs_rng st)) (S (used (gs_rng st))).
Proof.
  unfold generate_step, generate_letter, random.
  destruct (lm !! _) as [dist|]; simpl; [|done].
  destruct (sample dist _) as [c|] eqn:Hs; [|done].
  intros [= <-]. exists dist, c. simpl. eauto.
Qed.

(** ** The model on small inputs *)

(** Order 1 on ["aaaa"]: the sentinel history and the history ["a"] are both
    followed by [a] only. *)
Example train_aaaa :
  train_char_lm (str "aaaa") 1
  = Ok {[ str "~" := [("a"%char, 1%float)]; str "a" := [("a"%char, 1%float)] ]}.
Proof. vm_compute. reflexivity. Qed.

(** A negative order is not rejected either. On ["ab"] with order -1 the
    slices and indices wrap around; on the empty corpus the first index is out
    of range. *)
Example train_negative_order :
  train_char_lm (str "ab") (-1)
  = Ok {[ str "a" := [("b"%char, 1%float)];
          [] := [("a"%char, 0.5%float); ("b"%char, 0.5%float)] ]} ∧
  train_char_lm [] (-1) = Raise IndexError.
Proof. split; vm_compute; reflexivity. Qed.

(** The two exceptions of the division in [normalize]. *)
Example normalize_raises :
  normalize [("a"%char, 0)] = Raise ZeroDivisionError ∧
  normalize [("a"%char, 2 ^ 1024)] = Raise OverflowError.
Proof. split; vm_compute; reflexivity. Qed.

(** A history longer than the table's order is cut down before the lookup,
    and a history the table does not have is a [KeyError]. *)
Example generate_text_unseen :
  fst <$> generate_text lm_ab 1 2 rng_half = Ok (str "ab") ∧
  fst <$> generate_text lm_ab 1 3 rng_half = Raise KeyError.
Proof. split; vm_compute; reflexivity. Qed.

(** ** Lookup misses *)

(** C4. When the trailing [order]-character window of the history is not a
    key of the table, [generate_letter] raises [KeyError], whatever the random
    source, and so does the iteration of [generate_text] that called it: no
    character is returned and no default distribution is used. *)
Theorem generate_letter_unseen_history lm history order g :
  1 ≤ order →
  lm !! drop (length history - Z.to_nat order) history = None →
  generate_letter lm history order g = Raise KeyError ∧
  ∀ out, generate_step lm order (GenState history out g) = Raise KeyError.
Proof.
  intros Ho Hmiss. rewrite <- py_slice_from_last in Hmiss by done.
  assert (generate_letter lm history order g = Raise KeyError) as Hg.
  { unfold generate_letter. by rewrite Hmiss. }
  split; [done|]. intros out. unfold generate_step. simpl. by rewrite Hg.
Qed.

Lemma generate_letter_unseen_history_witness :
  generate_letter lm_ab (str "~b") 1 rng_half = Raise KeyError ∧
  ∀ out, generate_step lm_ab 1 (GenState (str "~b") out rng_half) = Raise KeyError.
Proof.
  apply (generate_letter_unseen_history lm_ab (str "~b") 1 rng_half);
    [lia | vm_compute; reflexivity].
Defined.

(** ** The window of a sampling step *)

(** C10. For [order >= 1] and a history of at least [order] characters,
    [generate_letter] first cuts the history down to its last [order]
    characters, so it gives the same result on the whole history as on that
    window alone. *)
Theorem generate_letter_window lm history order g :
  1 ≤ order →
  order ≤ py_len history →
  py_len (drop (length history - Z.to_nat order) history) = order ∧
  generate_letter lm history order g
  = generate_letter lm (drop (length history - Z.to_nat order) history) order g.
Proof.
  intros Ho Hlen. rewrite <- py_slice_from_last by done. split.
  - rewrite py_slice_from_last_len by done. lia.
  - unfold generate_letter. by rewrite py_slice_from_idemp.
Qed.

Lemma generate_letter_window_witness :
  py_len (drop (length (str "xyz~a") - Z.to_nat 1) (str "xyz~a")) = 1 ∧
  generate_letter lm_ab (str "xyz~a") 1 rng_half
  = generate_letter lm_ab (drop (length (str "xyz~a") - Z.to_nat 1) (str "xyz~a")) 1 rng_half.
Proof.
  apply (generate_letter_window lm_ab (str "xyz~a") 1 rng_half);
    [lia | vm_compute; discriminate].
Defined.

(** ** The rolling history buffer *)

(** The buffer after [n >= 1] iterations: the last [order] characters of the
    previous buffer followed by the character just chosen. *)
Lemma generate_loop_history lm order n g st :
  1 ≤ order → 1 ≤ n →
  generate_loop lm order n g = Ok st →
  ∃ prev c,
    generate_loop lm order (n - 1) g = Ok prev ∧
    py_len (gs_history prev) = (if decide (n = 1) then order else order + 1) ∧
    gs_history st = py_slice_from (gs_history prev) (- order) ++ [c].
Proof.
  intros Ho Hn. revert st. pattern n.
  apply (Zlt_lower_bound_ind _ 1); [|done]. clear n Hn.
  intros n IH Hn st Hst.
  replace n with ((n - 1) + 1) in Hst by lia.
  rewrite generate_loop_succ in Hst by lia.
  destruct (generate_loop lm order (n - 1) g) as [prev|e] eqn:Hprev; [|done].
  simpl in Hst. apply generate_step_ok in Hst as (dist & c & _ & _ & Hh & _).
  exists prev, c. split_and!; [done| |done].
  case_decide as Hn1.
  - subst n. rewrite generate_loop_0 in Hprev. injection Hprev as <-. simpl.
    rewrite py_len_str_mul. lia.
  - destruct (IH (n - 1) ltac:(lia) prev Hprev) as (pp & c' & _ & Hpp & ->).
    rewrite py_len_app, py_slice_from_last_len by done.
    unfold py_len at 2. simpl. case_decide; lia.
Qed.

(** One successful iteration, in terms of the call of [generate_letter]: the
    character it returned is appended to the cut buffer and to the output. *)
Lemma generate_step_letter lm order st st' :
  generate_step lm order st = Ok st' →
  ∃ c,
    generate_letter lm (gs_history st) order (gs_rng st) = Ok (Some c, gs_rng st') ∧
    gs_history st' = py_slice_from (gs_history st) (- order) ++ [c] ∧
    gs_out st' = gs_out st ++ [c].
Proof.
  unfold generate_step.
  destruct (generate_letter lm (gs_history st) order (gs_rng st)) as [[[c|] g']|e];
    simpl; [|done|done].
  intros [= <-]. by exists c.
Qed.

(** The window cut from the buffer after a run of the loop: the last [order]
    characters of the sentinels followed by the output so far. *)
Lemma generate_loop_window lm order n g st :
  1 ≤ order → 0 ≤ n →
  generate_loop lm order n g = Ok st →
  py_slice_from (gs_history st) (- order)
  = drop (length (gs_out st)) (py_str_mul sentinel order ++ gs_out st).
Proof.
  intros Ho Hn. revert st. pattern n. apply natlike_ind; [| |done]; clear n Hn.
  - intros st [= <-]. simpl. rewrite app_nil_r.
    rewrite py_slice_from_last by done. unfold py_str_mul.
    by rewrite length_replicate, Nat.sub_diag.
  - intros n Hn IH st Hst. unfold Z.succ in Hst.
    rewrite generate_loop_succ in Hst by done.
    destruct (generate_loop lm order n g) as [prev|e]; [|done]. simpl in Hst.
    specialize (IH prev eq_refl).
    apply generate_step_letter in Hst as (c & _ & Hh & Hout).
    set (pad := py_str_mul sentinel order) in *.
    assert (length pad = Z.to_nat order) as Hpad.
    { unfold pad, py_str_mul. by rewrite length_replicate. }
    set (W := drop (length (gs_out prev)) (pad ++ gs_out prev)) in *.
    assert (length W = Z.to_nat order) as HW.
    { unfold W. rewrite length_drop, length_app. lia. }
    rewrite Hout, Hh, IH. rewrite py_slice_from_last by done.
    rewrite !length_app, HW. simpl.
    replace (Z.to_nat order + 1 - Z.to_nat order)%nat with 1%nat by lia.
    rewrite app_assoc. rewrite (drop_app_le (pad ++ gs_out prev)) by (rewrite length_app; lia).
    rewrite drop_app_le by lia. f_equal. unfold W. by rewrite drop_drop.
Qed.

(** C6, as the code has it. The buffer starts as [order] sentinels. Each
    iteration keeps the last [order] characters of the buffer and then
    appends the character [generate_letter] chose, the one that also goes to
    the output. So after every iteration the buffer is the last [order + 1]
    characters of the sentinels followed by the output, and holds
    [order + 1] characters; the window cut from it for the next lookup holds
    exactly [order]. *)
Theorem generate_loop_buffer_length lm order n g st :
  1 ≤ order → 1 ≤ n →
  generate_loop lm order n g = Ok st →
  generate_loop lm order 0 g = Ok (GenState (replicate (Z.to_nat order) sentinel) [] g) ∧
  (∃ prev c,
     generate_loop lm order (n - 1) g = Ok prev ∧
     generate_letter lm (gs_history prev) order (gs_rng prev) = Ok (Some c, gs_rng st) ∧
     gs_out st = gs_out prev ++ [c] ∧
     gs_history st
     = drop (length (gs_history prev) - Z.to_nat order) (gs_history prev) ++ [c]) ∧
  gs_history st
  = drop (length (gs_out st) - 1) (py_str_mul sentinel order ++ gs_out st) ∧
  py_len (gs_history st) = order + 1 ∧
  py_len (py_slice_from (gs_history st) (- order)) = order.
Proof.
  intros Ho Hn Hst. split; [done|].
  replace n with ((n - 1) + 1) in Hst by lia.
  rewrite generate_loop_succ in Hst by lia.
  destruct (generate_loop lm order (n - 1) g) as [prev|e] eqn:Hprev; [|done].
  simpl in Hst.
  pose proof (generate_loop_window lm order (n - 1) g prev Ho ltac:(lia) Hprev) as Hwin.
  apply generate_step_letter in Hst as (c & Hlet & Hh & Hout).
  set (pad := py_str_mul sentinel order) in *.
  assert (length pad = Z.to_nat order) as Hpad.
  { unfold pad, py_str_mul. by rewrite length_replicate. }
  assert (gs_history st = drop (length (gs_out st) - 1) (pad ++ gs_out st)) as Hbuf.
  { rewrite Hh, Hwin, Hout, length_app. simpl.
    replace (length (gs_out prev) + 1 - 1)%nat with (length (gs_out prev)) by lia.
    rewrite app_assoc.
    by rewrite (drop_app_le (pad ++ gs_out prev)) by (rewrite length_app; lia). }
  assert (py_len (gs_history st) = order + 1) as Hlen.
  { rewrite Hbuf. unfold py_len. rewrite length_drop, length_app, Hout, length_app.
    simpl. lia. }
  split_and!.
  - exists prev, c. split_and!; [done|done|done|].
    by rewrite Hh, py_slice_from_last by done.
  - done.
  - done.
  - rewrite py_slice_from_last_len by done. lia.
Qed.

Lemma generate_loop_buffer_length_witness :
  generate_loop lm_ab 1 0 rng_half
  = Ok (GenState (replicate (Z.to_nat 1) sentinel) [] rng_half) ∧
  (∃ prev c,
     generate_loop lm_ab 1 (2 - 1) rng_half = Ok prev ∧
     generate_letter lm_ab (gs_history prev) 1 (gs_rng prev)
     = Ok (Some c, gs_rng (GenState (str "ab") (str "ab") (Rng (draws rng_half) 2))) ∧
     gs_out (GenState (str "ab") (str "ab") (Rng (draws rng_half) 2)) = gs_out prev ++ [c] ∧
     gs_history (GenState (str "ab") (str "ab") (Rng (draws rng_half) 2))
     = drop (length (gs_history prev) - Z.to_nat 1) (gs_history prev) ++ [c]) ∧
  gs_history (GenState (str "ab") (str "ab") (Rng (draws rng_half) 2))
  = drop (length (gs_out (GenState (str "ab") (str "ab") (Rng (draws rng_half) 2))) - 1)
      (py_str_mul sentinel 1
       ++ gs_out (GenState (str "ab") (str "ab") (Rng (draws rng_half) 2))) ∧
  py_len (gs_history (GenState (str "ab") (str "ab") (Rng (draws rng_half) 2))) = 1 + 1 ∧
  py_len (py_slice_from
            (gs_history (GenState (str "ab") (str "ab") (Rng (draws rng_half) 2))) (- 1)) = 1.
Proof.
  apply (generate_loop_buffer_length lm_ab 1 2 rng_half);
    [lia | lia | vm_compute; reflexivity].
Defined.

(** C6, as stated, fails: on the table trained on ["ab"] at order 1, the
    buffer after the first iteration is ["~a"], of length 2 and not 1. *)
Lemma generate_loop_buffer_not_order :
  train_char_lm (str "ab") 1 = Ok lm_ab ∧
  ∃ st, generate_loop lm_ab 1 1 rng_half = Ok st ∧
        gs_history st = str "~a" ∧
        py_len (gs_history st) ≠ 1.
Proof.
  split; [vm_compute; reflexivity|].
  eexists. split; [vm_compute; reflexivity|]. split; [reflexivity|].
  vm_compute. discriminate.
Qed.

(** ** Sampling that runs out of pairs *)

(** When no running value is [<= 0], the loop of [generate_letter] runs out
    and the function returns [None], whatever the last pair is. *)
Lemma sample_exhausted (dist : Dist) (x : float) :
  Forall (λ r, (r <=? 0)%float = false) (running_values dist x) →
  sample dist x = None.
Proof.
  revert x. induction dist as [|[c v] dist IH]; intros x Hrun; [done|].
  simpl in *. apply Forall_cons in Hrun as [-> Hrun]. by apply IH.
Qed.

Lemma generate_letter_exhausted lm history order g dist :
  lm !! py_slice_from history (- order) = Some dist →
  Forall (λ r, (r <=? 0)%float = false) (running_values dist (draws g (used g))) →
  generate_letter lm history order g = Ok (None, Rng (draws g) (S (used g))).
Proof.
  intros Hlm Hrun. unfold generate_letter, random. rewrite Hlm.
  by rewrite sample_exhausted.
Qed.

(** The output and the number of draws of a run of [generate_text] that
    returns: one character and one draw per iteration. *)
Lemma generate_loop_counts lm order n g st :
  0 ≤ n →
  generate_loop lm order n g = Ok st →
  py_len (gs_out st) = n ∧
  gs_rng st = Rng (draws g) (used g + Z.to_nat n).
Proof.
  intros Hn. revert st. pattern n. apply natlike_ind; [| |done]; clear n Hn.
  - intros st [= <-]. simpl. split; [done|]. destruct g; simpl. f_equal. lia.
  - intros n Hn IH st Hst. unfold Z.succ in Hst.
    rewrite generate_loop_succ in Hst by done.
    destruct (generate_loop lm order n g) as [prev|e]; [|done]. simpl in Hst.
    destruct (IH prev eq_refl) as [Hout Hrng].
    apply generate_step_ok in Hst as (dist & c & _ & _ & _ & Ho & Hr).
    rewrite Ho, Hr, Hrng, py_len_app, Hout. simpl. split; [done|].
    f_equal. lia.
Qed.

(** C3, at an input where it fails. The table is trained on [corpus_x] at
    order 1, two characters are asked for, and the recorded draws are [0.5]
    and [draw_max]. Both histories looked up, ["~"] and ["x"], are keys of the
    table; the second sampling step runs out of pairs, [generate_letter]
    returns [None], and [generate_text] raises [TypeError] instead of
    returning two characters. *)
Theorem generate_text_raises_on_exhausted_sampling :
  ∃ lm g1,
    train_char_lm corpus_x 1 = Ok lm ∧
    generate_letter lm (str "~") 1 rng_x = Ok (Some "x"%char, g1) ∧
    generate_letter lm (str "~x") 1 g1 = Ok (None, Rng (draws rng_x) 2) ∧
    generate_text lm 1 2 rng_x = Raise TypeError.
Proof.
  do 2 eexists. split; [vm_compute; reflexivity|].
  split; [vm_compute; reflexivity|].
  split; vm_compute; reflexivity.
Qed.

(** C7, at an input where it fails. In the table trained on [corpus_x] at
    order 1 the history ["x"] has the four pairs [a], [b], [c], [d] with
    probabilities [1/9], [3/9], [1/9], [4/9] as floats. With the draw
    [draw_max] the running value stays positive after all four subtractions,
    and [generate_letter] returns [None], not the last pair's [d]. *)
Theorem generate_letter_returns_None_on_exhausted_sampling :
  ∃ lm dist,
    train_char_lm corpus_x 1 = Ok lm ∧
    lm !! str "x" = Some dist ∧
    dist.*1 = str "abcd" ∧
    (draw_max <? 1)%float = true ∧
    Forall (λ r, (0 <? r)%float = true) (running_values dist draw_max) ∧
    sample dist draw_max = None ∧
    generate_letter lm (str "x") 1 (Rng (λ _, draw_max) 0)
    = Ok (None, Rng (λ _, draw_max) 1).
Proof.
  do 2 eexists. split; [vm_compute; reflexivity|].
  split; [vm_compute; reflexivity|].
  split; [reflexivity|]. split; [reflexivity|].
  split; [repeat constructor|]. split; vm_compute; reflexivity.
Qed.

(** ** Determinism *)

(** One iteration from two states with the same buffer and output and the
    same next draw: the same exception, or the same new buffer and output. *)
Lemma generate_step_agree lm order st1 st2 :
  gs_history st1 = gs_history st2 →
  gs_out st1 = gs_out st2 →
  draws (gs_rng st1) (used (gs_rng st1)) = draws (gs_rng st2) (used (gs_rng st2)) →
  match generate_step lm order st1, generate_step lm order st2 with
  | Ok st1', Ok st2' =>
      gs_history st1' = gs_history st2' ∧ gs_out st1' = gs_out st2' ∧
      gs_rng st1' = Rng (draws (gs_rng st1)) (S (used (gs_rng st1))) ∧
      gs_rng st2' = Rng (draws (gs_rng st2)) (S (used (gs_rng st2)))
  | Raise e1, Raise e2 => e1 = e2
  | _, _ => False
  end.
Proof.
  intros Hh Hout Hd. unfold generate_step, generate_letter, random.
  rewrite <- Hh, <- Hout, <- Hd.
  destruct (lm !! _) as [dist|]; simpl; [|done].
  by destruct (sample dist _) as [c|]; simpl.
Qed.

(** Two runs of the loop agree when they start from the same buffer and
    output and their sources agree on the draws the loop will make. *)
Lemma for_each_generate_step_agree {A : Type} lm order (xs : list A) st1 st2 :
  gs_history st1 = gs_history st2 →
  gs_out st1 = gs_out st2 →
  (∀ i, (i < length xs)%nat →
        draws (gs_rng st1) (used (gs_rng st1) + i)
        = draws (gs_rng st2) (used (gs_rng st2) + i)) →
  gs_out <$> for_each (λ st _, generate_step lm order st) xs st1
  = gs_out <$> for_each (λ st _, generate_step lm order st) xs st2.
Proof.
  revert st1 st2. induction xs as [|x xs IH]; intros st1 st2 Hh Hout Hd; simpl.
  { by rewrite Hout. }
  pose proof (Hd 0%nat ltac:(simpl; lia)) as Hd0. rewrite !Nat.add_0_r in Hd0.
  pose proof (generate_step_agree lm order st1 st2 Hh Hout Hd0) as Hstep.
  destruct (generate_step lm order st1) as [st1'|e1],
           (generate_step lm order st2) as [st2'|e2]; simpl; try done.
  - destruct Hstep as (Hh' & Hout' & Hr1 & Hr2).
    apply IH; [done | done |]. rewrite Hr1, Hr2. simpl.
    intros i Hi. specialize (Hd (S i) ltac:(simpl; lia)).
    by rewrite <- !Nat.add_succ_comm in Hd.
  - by subst.
Qed.

(** C8. Training is a function of the corpus and the order, and the text
    generated from the trained table is determined by the first [nletters]
    recorded draws: two runs on the same corpus and order whose sources agree
    on those draws end the same way, with the same output or the same
    exception. *)
Theorem train_and_generate_deterministic contents order nletters g1 g2 :
  (∀ i, (i < Z.to_nat nletters)%nat →
        draws g1 (used g1 + i) = draws g2 (used g2 + i)) →
  fst <$> train_and_generate contents order nletters g1
  = fst <$> train_and_generate contents order nletters g2.
Proof.
  intros Hd. unfold train_and_generate.
  destruct (train_char_lm contents order) as [lm|e]; simpl; [|done].
  unfold generate_text, generate_loop.
  pose proof (for_each_generate_step_agree lm order (py_range nletters)
    (GenState (py_str_mul sentinel order) [] g1)
    (GenState (py_str_mul sentinel order) [] g2) eq_refl eq_refl) as H.
  simpl in H. unfold py_range in H. rewrite length_seqZ in H.
  specialize (H Hd). unfold py_range.
  destruct (for_each _ _ (GenState _ _ g1)) as [s1|e1];
    destruct (for_each _ _ (GenState _ _ g2)) as [s2|e2]; simpl in *; congruence.
Qed.

Lemma train_and_generate_deterministic_witness :
  fst <$> train_and_generate corpus_x 1 1 rng_x
  = fst <$> train_and_generate corpus_x 1 1 rng_half.
Proof.
  apply (train_and_generate_deterministic corpus_x 1 1 rng_x rng_half).
  intros [|i] Hi; [reflexivity | simpl in Hi; lia].
Defined.

(** ** Binary64: digits, shifts and rounding *)

(** The number of binary digits, in the terms of [Z.log2]. *)
Lemma digits2_pos_size p : digits2_pos p = Pos.size p.
Proof. induction p; simpl; congruence. Qed.

Lemma Zdigits2_log2 z : 0 < z → Zdigits2 z = Z.log2 z + 1.
Proof.
  destruct z as [|p|p]; try lia. intros _. simpl. rewrite digits2_pos_size.
  destruct p; simpl; lia.
Qed.

Lemma Zdigits2_unique z d : 0 < d → 2 ^ (d - 1) ≤ z < 2 ^ d → Zdigits2 z = d.
Proof.
  intros Hd Hz. assert (0 < z) by (pose proof (Z.pow_pos_nonneg 2 (d - 1)); lia).
  rewrite Zdigits2_log2 by done.
  rewrite (Z.log2_unique z (d - 1)); [lia | lia |].
  by replace (Z.succ (d - 1)) with d by lia.
Qed.

(** Away from the subnormal range the exponent of a float with [e] digits above
    the binary point is [e - 53]. *)
Lemma fexp_normal e : -1021 ≤ e → fexp prec emax e = e - 53.
Proof. unfold fexp, SpecFloat.emin, prec, emax. lia. Qed.

(** The shifts of [shr]: [shr_1] iterated, and what it does to the mantissa. *)
Lemma iter_pos_nat {A} (f : A → A) n x : SpecFloat.iter_pos f n x = Nat.iter (Pos.to_nat n) f x.
Proof.
  revert x. induction n as [n IH|n IH|]; intros x; cbn [SpecFloat.iter_pos]; [| |done].
  - rewrite !IH, Pos2Nat.inj_xI, <- Nat.iter_succ_r, <- Nat.iter_add. f_equal. lia.
  - rewrite !IH, Pos2Nat.inj_xO, <- Nat.iter_add. f_equal. lia.
Qed.

Lemma shr_m_shr_1 mrs : 0 ≤ shr_m mrs → shr_m (shr_1 mrs) = shr_m mrs / 2.
Proof.
  destruct mrs as [m r s]. simpl. intros Hm.
  destruct m as [|[p|p|]|p]; cbn [shr_m]; try lia; try done.
  - apply (Z.div_unique _ _ _ 1); lia.
  - apply (Z.div_unique _ _ _ 0); lia.
Qed.

Lemma shr_m_iter n mrs :
  0 ≤ shr_m mrs → shr_m (Nat.iter n shr_1 mrs) = shr_m mrs / 2 ^ Z.of_nat n.
Proof.
  intros Hm. induction n as [|n IH].
  - simpl. by rewrite Z.div_1_r.
  - rewrite Nat.iter_succ, shr_m_shr_1, IH.
    + rewrite Nat2Z.inj_succ, Z.pow_succ_r by lia.
      rewrite Z.div_div by lia. f_equal. lia.
    + rewrite IH. apply Z.div_pos; lia.
Qed.

Lemma shr_m_record_of_loc m l : shr_m (shr_record_of_loc m l) = m.
Proof. by destruct l as [|[]]. Qed.

(** Rounding moves the mantissa up by at most one. *)
Lemma round_nearest_even_range m l :
  m ≤ round_nearest_even m l ≤ m + 1.
Proof. destruct l as [|[]]; simpl; try lia. destruct (Z.even m); lia. Qed.

(** [shr_fexp] leaves a 53-bit mantissa alone and shifts a longer one down to
    53 bits. *)
Lemma shr_fexp_53 m e l :
  2 ^ 52 ≤ m < 2 ^ 53 → -1074 ≤ e →
  shr_fexp prec emax m e l = (shr_record_of_loc m l, e).
Proof.
  intros Hm He. unfold shr_fexp.
  rewrite (Zdigits2_unique m 53) by lia. rewrite fexp_normal by lia.
  by replace (53 + e - 53 - e) with 0 by lia.
Qed.

Lemma shr_fexp_more m e l n :
  2 ^ (52 + Z.pos n) ≤ m < 2 ^ (53 + Z.pos n) → -1074 ≤ e →
  shr_fexp prec emax m e l
  = (Nat.iter (Pos.to_nat n) shr_1 (shr_record_of_loc m l), e + Z.pos n).
Proof.
  intros Hm He. unfold shr_fexp.
  rewrite (Zdigits2_unique m (53 + Z.pos n)); [|lia|].
  2:{ by replace (53 + Z.pos n - 1) with (52 + Z.pos n) by lia. }
  rewrite fexp_normal by lia.
  replace (53 + Z.pos n + e - 53 - e) with (Z.pos n) by lia.
  unfold shr. by rewrite iter_pos_nat.
Qed.

(** [binary_round_aux], once the first [shr_fexp] has produced a 53-bit
    mantissa: the result is finite, as [round_finish] gives it. *)
Lemma binary_round_aux_finish sx mx ex lx mrs e :
  shr_fexp prec emax mx ex lx = (mrs, e) →
  2 ^ 52 ≤ shr_m mrs < 2 ^ 53 → -1074 ≤ e ≤ 970 →
  binary_round_aux prec emax sx mx ex lx
  = let '(m, e') := round_finish (shr_m mrs) (loc_of_shr_record mrs) e in
    S754_finite sx (Z.to_pos m) e'.
Proof.
  intros Hshr Hm He. unfold binary_round_aux. rewrite Hshr.
  unfold round_finish, round_carry.
  pose proof (round_nearest_even_range (shr_m mrs) (loc_of_shr_record mrs)) as Hr.
  set (m' := round_nearest_even _ _) in *.
  destruct (Z.eqb_spec m' (2 ^ 53)) as [->|Hne].
  - rewrite (shr_fexp_more _ _ _ 1) by (simpl; lia). simpl.
    destruct (Z.leb_spec (e + 1) (emax - prec)) as [|Hlt]; [done|].
    unfold emax, prec in Hlt. lia.
  - rewrite shr_fexp_53 by lia. simpl.
    destruct m' as [|p|p]; try lia.
    destruct (Z.leb_spec e (emax - prec)) as [|Hlt]; [done|].
    unfold emax, prec in Hlt. lia.
Qed.

Lemma round_finish_range m l e :
  2 ^ 52 ≤ m < 2 ^ 53 →
  2 ^ 52 ≤ (round_finish m l e).1 < 2 ^ 53 ∧
  e ≤ (round_finish m l e).2 ≤ e + 1.
Proof.
  intros Hm. unfold round_finish, round_carry.
  pose proof (round_nearest_even_range m l).
  destruct (Z.eqb_spec (round_nearest_even m l) (2 ^ 53)); simpl; lia.
Qed.

(** A 53-bit mantissa with an exponent in range is a valid binary64 float. *)
Lemma valid_binary_normal s m e :
  2 ^ 52 ≤ m < 2 ^ 53 → -1074 ≤ e ≤ 971 →
  valid_binary (S754_finite s (Z.to_pos m) e) = true.
Proof.
  intros Hm He. unfold SpecFloat.valid_binary, bounded, canonical_mantissa.
  change (Z.pos (digits2_pos (Z.to_pos m))) with (Zdigits2 (Z.pos (Z.to_pos m))).
  rewrite Z2Pos.id by lia. rewrite (Zdigits2_unique m 53) by lia.
  rewrite fexp_normal by lia. unfold emax, prec.
  apply andb_true_intro. split; [apply Z.eqb_eq | apply Z.leb_le]; lia.
Qed.

(** [shl_align] shifts the mantissa left to reach a smaller exponent. *)
Lemma pos_iter_xO p d : Z.pos (Pos.iter xO p d) = Z.pos p * 2 ^ Z.pos d.
Proof.
  induction d as [|d IH] using Pos.peano_ind; simpl.
  - lia.
  - rewrite Pos.iter_succ, Pos2Z.inj_xO, IH, Pos2Z.inj_succ, Z.pow_succ_r by lia.
    lia.
Qed.

Lemma shl_align_spec p e e' :
  e' ≤ e → shl_align p e e' = (Z.to_pos (Z.pos p * 2 ^ (e - e')), e').
Proof.
  intros He. unfold shl_align.
  destruct (e' - e) as [|d|d] eqn:Hd; try lia.
  - replace (e - e') with 0 by lia. assert (e' = e) as -> by lia.
    f_equal. rewrite Z.mul_1_r. done.
  - replace (e - e') with (Z.pos d) by lia.
    by rewrite <- pos_iter_xO.
Qed.

(** Powers of two. *)
Lemma pow2_split (a b : Z) : 0 ≤ a → 0 ≤ b → 2 ^ (a + b) = 2 ^ a * 2 ^ b.
Proof. intros. by rewrite Z.pow_add_r. Qed.

Lemma pow2_scale z k t :
  0 ≤ k → 0 ≤ t → 2 ^ k ≤ z < 2 ^ Z.succ k →
  2 ^ (k + t) ≤ z * 2 ^ t < 2 ^ (k + 1 + t).
Proof.
  intros Hk Ht Hz. rewrite !pow2_split by lia.
  assert (0 < 2 ^ t) by (apply Z.pow_pos_nonneg; lia).
  change (2 ^ 1) with 2. rewrite Z.pow_succ_r in Hz by lia. nia.
Qed.

(** The float of a positive integer below [2^53] is exact: the integer
    shifted left to 53 bits. *)
Lemma binary_normalize_exact z :
  0 < z < 2 ^ 53 →
  binary_normalize prec emax z 0 false
  = S754_finite false (Z.to_pos (z * 2 ^ (52 - Z.log2 z))) (Z.log2 z - 52).
Proof.
  intros Hz. pose proof (Z.log2_spec z ltac:(lia)) as Hlog.
  pose proof (Z.log2_nonneg z) as Hnn.
  assert (Z.log2 z < 53) as Hlt by (apply Z.log2_lt_pow2; lia).
  destruct z as [|p|p]; try lia. unfold binary_normalize, binary_round.
  change (Z.pos (digits2_pos p)) with (Zdigits2 (Z.pos p)).
  rewrite Zdigits2_log2, Z.add_0_r by lia. rewrite fexp_normal by lia.
  rewrite shl_align_spec by lia.
  replace (0 - (Z.log2 (Z.pos p) + 1 - 53)) with (52 - Z.log2 (Z.pos p)) by lia.
  replace (Z.log2 (Z.pos p) + 1 - 53) with (Z.log2 (Z.pos p) - 52) by lia.
  set (k := Z.log2 (Z.pos p)) in *. set (m := Z.pos p * 2 ^ (52 - k)).
  assert (2 ^ 52 ≤ m < 2 ^ 53) as Hm.
  { pose proof (pow2_scale (Z.pos p) k (52 - k) ltac:(lia) ltac:(lia) Hlog) as Hs.
    replace (k + (52 - k)) with 52 in Hs by lia.
    by replace (k + 1 + (52 - k)) with 53 in Hs by lia. }
  rewrite Z2Pos.id by lia.
  rewrite (binary_round_aux_finish _ _ _ _ (shr_record_of_loc m loc_Exact) (k - 52));
    [|apply shr_fexp_53; lia|simpl; lia|lia].
  unfold round_finish, round_carry. simpl.
  destruct (Z.eqb_spec m (2 ^ 53)); [lia|done].
Qed.

(** ** Locations and rounding to nearest *)

(** The location [SFdiv_core_binary] computes from a remainder. *)
Lemma new_location_loc_of D N q :
  0 < D → 0 ≤ N - q * D < D → new_location D (N - q * D) = loc_of N D q.
Proof.
  intros HD Hr. unfold new_location, new_location_even, new_location_odd, loc_of.
  destruct (Z.even D) eqn:Hev; [done|].
  destruct (Z.eqb_spec (N - q * D) 0); [done|]. f_equal.
  assert (Z.odd D = true) as Hodd by (by rewrite <- Z.negb_even, Hev).
  apply Z.odd_spec in Hodd as [k Hk].
  destruct (Z.compare_spec (2 * (N - q * D) + 1) D),
           (Z.compare_spec (2 * (N - q * D)) D); (done || lia).
Qed.

(** A shift record is its mantissa and its location. *)
Lemma loc_of_shr_record_of_loc m l :
  loc_of_shr_record (shr_record_of_loc m l) = l.
Proof. by destruct l as [|[]]. Qed.

Lemma shr_record_eta mrs :
  shr_record_of_loc (shr_m mrs) (loc_of_shr_record mrs) = mrs.
Proof. by destruct mrs as [m [] []]. Qed.

(** One right shift keeps the location right, for a denominator twice as
    large. *)
Lemma shr_1_loc_of N D q :
  0 < D → 0 ≤ q → 0 ≤ N - q * D < D →
  loc_of_shr_record (shr_1 (shr_record_of_loc q (loc_of N D q)))
  = loc_of N (2 * D) (q / 2).
Proof.
  intros HD Hq Hr. pose proof (Z.div_mod q 2 ltac:(lia)) as Hq2.
  pose proof (Z.mod_pos_bound q 2 ltac:(lia)) as Hb.
  set (h := q / 2) in *. set (bit := q mod 2) in *. clearbody h bit. subst q.
  assert (0 ≤ h) by lia. unfold loc_of.
  assert (bit = 0 ∨ bit = 1) as [-> | ->] by lia.
  - rewrite Z.add_0_r in *.
    replace (N - h * (2 * D)) with (N - 2 * h * D) by lia.
    destruct (Z.eqb_spec (N - 2 * h * D) 0) as [H0|H0].
    + destruct h as [|p|p]; try lia; done.
    + replace (2 * (N - 2 * h * D) ?= 2 * D) with Lt
        by (symmetry; apply Z.compare_lt_iff; lia).
      destruct (2 * (N - 2 * h * D) ?= D); destruct h as [|p|p]; try lia; done.
  - destruct (Z.eqb_spec (N - h * (2 * D)) 0) as [H1|H1]; [exfalso; lia|].
    destruct (Z.eqb_spec (N - (2 * h + 1) * D) 0) as [H0|H0].
    + replace (2 * (N - h * (2 * D)) ?= 2 * D) with Eq
        by (symmetry; apply Z.compare_eq_iff; lia).
      destruct h as [|p|p]; try lia; done.
    + replace (2 * (N - h * (2 * D)) ?= 2 * D) with Gt
        by (symmetry; apply Z.compare_gt_iff; lia).
      destruct (2 * (N - (2 * h + 1) * D) ?= D); destruct h as [|p|p]; try lia; done.
Qed.

(** The location does not change when numerator and denominator are scaled. *)
Lemma loc_of_scale N D q c : 0 < c → loc_of (c * N) (c * D) q = loc_of N D q.
Proof.
  intros Hc. unfold loc_of.
  replace (c * N - q * (c * D)) with (c * (N - q * D)) by lia.
  destruct (Z.eqb_spec (N - q * D) 0) as [->|Hne].
  - by rewrite Z.mul_0_r.
  - destruct (Z.eqb_spec (c * (N - q * D)) 0); [nia|]. f_equal.
    destruct (Z.compare_spec (2 * (N - q * D)) D);
      [apply Z.compare_eq_iff | apply Z.compare_lt_iff | apply Z.compare_gt_iff]; nia.
Qed.

(** [n] right shifts keep the location right, for a denominator [2^n] times
    as large. *)
Lemma shr_iter_loc_of N D q n :
  0 < D → 0 ≤ q → 0 ≤ N - q * D < D →
  Nat.iter n shr_1 (shr_record_of_loc q (loc_of N D q))
  = shr_record_of_loc (q / 2 ^ Z.of_nat n)
      (loc_of N (2 ^ Z.of_nat n * D) (q / 2 ^ Z.of_nat n)) ∧
  0 ≤ N - q / 2 ^ Z.of_nat n * (2 ^ Z.of_nat n * D) < 2 ^ Z.of_nat n * D.
Proof.
  intros HD Hq Hr. induction n as [|n [IH Hrn]].
  { change (2 ^ Z.of_nat 0) with 1. rewrite Z.div_1_r, Z.mul_1_l. split; [done|lia]. }
  rewrite Nat.iter_succ, IH, Nat2Z.inj_succ, Z.pow_succ_r by lia.
  set (P := 2 ^ Z.of_nat n) in *.
  assert (0 < P) by (apply Z.pow_pos_nonneg; lia).
  assert (0 ≤ q / P) by (apply Z.div_pos; lia).
  replace (q / (2 * P)) with (q / P / 2) by (rewrite Z.div_div by lia; f_equal; lia).
  replace (2 * P * D) with (2 * (P * D)) by lia.
  split.
  - rewrite <- (shr_record_eta (shr_1 _)).
    rewrite shr_m_shr_1, shr_m_record_of_loc by (by rewrite shr_m_record_of_loc).
    by rewrite shr_1_loc_of by (done || lia).
  - pose proof (Z.div_mod (q / P) 2 ltac:(lia)).
    pose proof (Z.mod_pos_bound (q / P) 2 ltac:(lia)). nia.
Qed.

(** Rounding by [round_nearest_even] from a right location is rounding to
    nearest, ties to even. *)
Lemma round_nearest_even_is_rne N D q :
  0 < D → 0 ≤ N - q * D < D →
  is_rne N D (round_nearest_even q (loc_of N D q)).
Proof.
  intros HD Hr. unfold loc_of, is_rne.
  destruct (Z.eqb_spec (N - q * D) 0) as [H0|H0]; simpl.
  { split; [lia|]. intros. lia. }
  destruct (Z.compare_spec (2 * (N - q * D)) D) as [He|Hl|Hg].
  - destruct (Z.even q) eqn:Hev.
    + split; [lia|done].
    + split; [lia|]. intros _. rewrite Z.even_add, Hev. done.
  - split; [lia|]. intros. lia.
  - split; [lia|]. intros. lia.
Qed.

(** Rounding to nearest, ties to even, is a function of the quotient, it is
    monotone, and it does not see a common factor. *)
Lemma is_rne_unique N D m m' :
  0 < D → is_rne N D m → is_rne N D m' → m = m'.
Proof.
  intros HD [H1 E1] [H2 E2].
  destruct (Z.eq_dec m m') as [|Hne]; [done|exfalso].
  assert (m' = m + 1 ∨ m = m' + 1) as [->| ->] by nia.
  - assert (2 * Z.abs (m * D - N) = D) as T1 by nia.
    assert (2 * Z.abs ((m + 1) * D - N) = D) as T2 by nia.
    specialize (E1 T1). specialize (E2 T2).
    rewrite Z.even_add, E1 in E2. done.
  - assert (2 * Z.abs (m' * D - N) = D) as T1 by nia.
    assert (2 * Z.abs ((m' + 1) * D - N) = D) as T2 by nia.
    specialize (E1 T2). specialize (E2 T1).
    rewrite Z.even_add, E2 in E1. done.
Qed.

Lemma is_rne_scale N D m c : 0 < c → is_rne N D m ↔ is_rne (c * N) (c * D) m.
Proof.
  intros Hc. unfold is_rne.
  replace (m * (c * D) - c * N) with (c * (m * D - N)) by lia.
  rewrite Z.abs_mul, (Z.abs_eq c) by lia.
  split; intros [H1 H2]; (split; [nia|]); intros; apply H2; nia.
Qed.

Lemma is_rne_mono N N' D m m' :
  0 < D → N ≤ N' → is_rne N D m → is_rne N' D m' → m ≤ m'.
Proof.
  intros HD HN [H1 E1] [H2 E2].
  destruct (Z.le_gt_cases m m') as [|Hgt]; [done|exfalso].
  assert (N = N') as <- by nia.
  assert (m = m') by (by apply (is_rne_unique N D)). lia.
Qed.

(** [round_finish] in the terms of [round_carry]. *)
Lemma round_finish_carry q l e :
  round_finish q l e = round_carry (round_nearest_even q l) e.
Proof. done. Qed.

(** ** The floats of integers *)

(** The float of an integer from [2^53] up to [2^63]: the integer is shifted
    right to 53 bits and rounded. *)
Lemma binary_normalize_round z :
  2 ^ 53 ≤ z < 2 ^ 63 →
  binary_normalize prec emax z 0 false
  = let n := Z.log2 z - 52 in
    let '(m, e) := round_carry
                     (round_nearest_even (z / 2 ^ n) (loc_of z (2 ^ n) (z / 2 ^ n))) n in
    S754_finite false (Z.to_pos m) e.
Proof.
  intros Hz. pose proof (Z.log2_spec z ltac:(lia)) as Hlog.
  assert (53 ≤ Z.log2 z) as Hge by (apply Z.log2_le_pow2; lia).
  assert (Z.log2 z < 63) as Hlt by (apply Z.log2_lt_pow2; lia).
  destruct z as [|p|p]; try lia. unfold binary_normalize, binary_round.
  change (Z.pos (digits2_pos p)) with (Zdigits2 (Z.pos p)).
  rewrite Zdigits2_log2, Z.add_0_r by lia. rewrite fexp_normal by lia.
  set (k := Z.log2 (Z.pos p)) in *.
  assert (shl_align p 0 (k + 1 - 53) = (p, 0)) as ->.
  { unfold shl_align. destruct (k + 1 - 53 - 0) eqn:?; try lia; done. }
  set (n := Z.to_pos (k - 52)).
  assert (Z.pos n = k - 52) as Hn by (unfold n; lia). clearbody n.
  cbv zeta. rewrite <- Hn.
  destruct (shr_iter_loc_of (Z.pos p) 1 (Z.pos p) (Pos.to_nat n)) as [Hit _];
    [lia..|].
  rewrite positive_nat_Z, Z.mul_1_r in Hit.
  assert (loc_of (Z.pos p) 1 (Z.pos p) = loc_Exact) as Hex.
  { unfold loc_of. by replace (Z.pos p - Z.pos p * 1) with 0 by lia. }
  rewrite Hex in Hit.
  assert (2 ^ 52 ≤ Z.pos p / 2 ^ Z.pos n < 2 ^ 53) as Hm.
  { rewrite Hn. pose proof (Z.pow_pos_nonneg 2 (k - 52)).
    assert (2 ^ k = 2 ^ 52 * 2 ^ (k - 52)) as Hk
      by (rewrite <- pow2_split by lia; f_equal; lia).
    assert (2 ^ Z.succ k = 2 ^ 53 * 2 ^ (k - 52)) as Hk'
      by (rewrite <- pow2_split by lia; f_equal; lia).
    split; [apply Z.div_le_lower_bound | apply Z.div_lt_upper_bound]; lia. }
  rewrite (binary_round_aux_finish _ _ _ _
             (Nat.iter (Pos.to_nat n) shr_1 (shr_record_of_loc (Z.pos p) loc_Exact))
             (0 + Z.pos n)).
  - rewrite Hit, shr_m_record_of_loc, loc_of_shr_record_of_loc.
    by rewrite round_finish_carry, Z.add_0_l.
  - apply shr_fexp_more; [|lia]. rewrite Hn.
    replace (52 + (k - 52)) with k by lia.
    by replace (53 + (k - 52)) with (Z.succ k) by lia.
  - by rewrite Hit, shr_m_record_of_loc.
  - lia.
Qed.

(** From [2^53] on, [round_int z] is a 53-bit mantissa [m0], the rounding of
    [z / 2^n], times [2^n]. *)
Lemma round_int_rne z :
  2 ^ 53 ≤ z < 2 ^ 63 →
  ∃ n m0,
    n = Z.log2 z - 52 ∧
    m0 = round_nearest_even (z / 2 ^ n) (loc_of z (2 ^ n) (z / 2 ^ n)) ∧
    1 ≤ n ≤ 10 ∧ 2 ^ (52 + n) ≤ z < 2 ^ (53 + n) ∧
    is_rne z (2 ^ n) m0 ∧ 2 ^ 52 ≤ m0 ≤ 2 ^ 53 ∧ round_int z = m0 * 2 ^ n.
Proof.
  intros Hz. eexists _, _. split; [reflexivity|]. split; [reflexivity|].
  set (n := Z.log2 z - 52). set (m0 := round_nearest_even _ _).
  pose proof (Z.log2_spec z ltac:(lia)) as Hlog.
  assert (53 ≤ Z.log2 z) as Hge by (apply Z.log2_le_pow2; lia).
  assert (Z.log2 z < 63) as Hlt by (apply Z.log2_lt_pow2; lia).
  assert (0 < 2 ^ n) as Hp by (apply Z.pow_pos_nonneg; lia).
  assert (0 ≤ z - z / 2 ^ n * 2 ^ n < 2 ^ n) as Hr.
  { pose proof (Z.mod_pos_bound z (2 ^ n) Hp) as Hm.
    rewrite Z.mod_eq in Hm by lia. lia. }
  assert (is_rne z (2 ^ n) m0) as Hrne by (by apply round_nearest_even_is_rne).
  split; [unfold n; lia|].
  replace (52 + n) with (Z.log2 z) by (unfold n; lia).
  replace (53 + n) with (Z.succ (Z.log2 z)) by (unfold n; lia).
  split; [done|]. split; [done|]. split.
  - assert (2 ^ Z.log2 z = 2 ^ 52 * 2 ^ n) as Hk
      by (rewrite <- pow2_split by (unfold n; lia); f_equal; unfold n; lia).
    assert (2 ^ Z.succ (Z.log2 z) = 2 ^ 53 * 2 ^ n) as Hk'
      by (rewrite <- pow2_split by (unfold n; lia); f_equal; unfold n; lia).
    destruct Hrne as [Hrne _]. nia.
  - unfold round_int. destruct (Z.ltb_spec z (2 ^ 53)); [lia|done].
Qed.

(** [float(z)] for [0 < z < 2^63]: a normalized float whose value is
    [round_int z]. *)
Lemma binary_normalize_int z :
  0 < z < 2 ^ 63 →
  ∃ m e, binary_normalize prec emax z 0 false = S754_finite false (Z.to_pos m) e ∧
         2 ^ 52 ≤ m < 2 ^ 53 ∧ -52 ≤ e ≤ 11 ∧
         round_int z * 2 ^ 52 = m * 2 ^ (e + 52).
Proof.
  intros Hz. destruct (Z.lt_ge_cases z (2 ^ 53)) as [Hsmall|Hbig].
  - pose proof (Z.log2_spec z ltac:(lia)) as Hlog.
    pose proof (Z.log2_nonneg z) as Hnn.
    assert (Z.log2 z < 53) as Hlt by (apply Z.log2_lt_pow2; lia).
    rewrite binary_normalize_exact by lia.
    eexists _, _. split; [done|].
    set (k := Z.log2 z) in *.
    pose proof (pow2_scale z k (52 - k) ltac:(lia) ltac:(lia) Hlog) as Hs.
    replace (k + (52 - k)) with 52 in Hs by lia.
    replace (k + 1 + (52 - k)) with 53 in Hs by lia.
    split; [done|]. split; [lia|].
    unfold round_int. destruct (Z.ltb_spec z (2 ^ 53)); [|lia].
    replace (k - 52 + 52) with k by lia.
    rewrite <- Z.mul_assoc, <- pow2_split by lia. do 2 f_equal. lia.
  - rewrite binary_normalize_round by lia. cbv zeta.
    destruct (round_int_rne z ltac:(lia)) as (n & m0 & <- & <- & Hn & Hzn & Hrne & Hm0 & ->).
    unfold round_carry. destruct (Z.eqb_spec m0 (2 ^ 53)) as [->|Hne].
    + exists (2 ^ 52), (n + 1). split; [done|]. split; [lia|]. split; [lia|].
      replace (n + 1 + 52) with (1 + n + 52) by lia.
      rewrite !pow2_split by lia. change (2 ^ 1) with 2. lia.
    + exists m0, n. split; [done|]. split; [lia|]. split; [lia|].
      rewrite pow2_split by lia. lia.
Qed.

(** [round_int] is within relative error [2^-53], it is monotone, and it is
    the identity below [2^53]. *)
Lemma round_int_error z :
  0 < z < 2 ^ 63 → 0 < round_int z ∧ 2 ^ 53 * Z.abs (round_int z - z) ≤ z.
Proof.
  intros Hz. destruct (Z.lt_ge_cases z (2 ^ 53)) as [Hsmall|Hbig].
  - unfold round_int. destruct (Z.ltb_spec z (2 ^ 53)); lia.
  - destruct (round_int_rne z ltac:(lia))
      as (n & m0 & _ & _ & Hn & Hzn & [Hrne _] & Hm0 & ->).
    assert (0 < 2 ^ n) as Hp by (apply Z.pow_pos_nonneg; lia).
    rewrite pow2_split in Hzn by lia. split; [nia|]. nia.
Qed.

Lemma round_int_mono a b :
  0 < a → a ≤ b → b < 2 ^ 63 → round_int a ≤ round_int b.
Proof.
  intros Ha Hab Hb.
  destruct (Z.lt_ge_cases b (2 ^ 53)) as [Hbs|Hbb].
  { unfold round_int. destruct (Z.ltb_spec a (2 ^ 53)), (Z.ltb_spec b (2 ^ 53)); lia. }
  destruct (round_int_rne b ltac:(lia))
    as (nb & mb & Hnb' & _ & Hnb & Hzb & Hrb & Hmb & ->).
  assert (0 < 2 ^ nb) as Hpb by (apply Z.pow_pos_nonneg; lia).
  destruct (Z.lt_ge_cases a (2 ^ 53)) as [Has|Hab'].
  { unfold round_int. destruct (Z.ltb_spec a (2 ^ 53)); [|lia].
    assert (2 ^ 1 ≤ 2 ^ nb) by (apply Z.pow_le_mono_r; lia).
    change (2 ^ 1) with 2 in *. nia. }
  destruct (round_int_rne a ltac:(lia))
    as (na & ma & Hna' & _ & Hna & Hza & Hra & Hma & ->).
  assert (0 < 2 ^ na) as Hpa by (apply Z.pow_pos_nonneg; lia).
  assert (na ≤ nb) as Hn by (pose proof (Z.log2_le_mono a b Hab); lia).
  destruct (Z.eq_dec na nb) as [Heq|Hne].
  - rewrite Heq in *. pose proof (is_rne_mono a b (2 ^ nb) ma mb Hpb Hab Hra Hrb). nia.
  - assert (2 ^ (na + 1) ≤ 2 ^ nb) by (apply Z.pow_le_mono_r; lia).
    rewrite pow2_split in * by lia. change (2 ^ 1) with 2 in *. nia.
Qed.

Lemma round_int_exact z : z < 2 ^ 53 → round_int z = z.
Proof. intros Hz. unfold round_int. by destruct (Z.ltb_spec z (2 ^ 53)); [|lia]. Qed.

(** Doubling an integer shifts the exponent of its float by one. *)
Lemma binary_normalize_double z :
  0 < z → 2 * z < 2 ^ 63 →
  ∃ m e, binary_normalize prec emax z 0 false = S754_finite false m e ∧
         binary_normalize prec emax (2 * z) 0 false = S754_finite false m (e + 1).
Proof.
  intros Hz Hz2. pose proof (Z.log2_double z Hz) as Hlog2.
  destruct (Z.lt_ge_cases (2 * z) (2 ^ 53)) as [Hsmall|Hbig2].
  - rewrite !binary_normalize_exact by lia. rewrite Hlog2.
    pose proof (Z.log2_nonneg z).
    assert (Z.log2 z < 52) by (apply Z.log2_lt_pow2; lia).
    eexists _, _. split; [done|]. f_equal; [|lia]. f_equal.
    replace (52 - Z.log2 z) with (Z.succ (52 - Z.succ (Z.log2 z))) by lia.
    rewrite Z.pow_succ_r by lia. lia.
  - rewrite (binary_normalize_round (2 * z)) by lia. cbv zeta. rewrite Hlog2.
    destruct (Z.lt_ge_cases z (2 ^ 53)) as [Hsmall|Hbig].
    + assert (Z.log2 z = 52) as Hk by (apply Z.log2_unique; lia).
      rewrite binary_normalize_exact by lia. rewrite Hk.
      replace (Z.succ 52 - 52) with 1 by lia. change (2 ^ 1) with 2.
      replace (2 * z / 2) with z by (apply Z.div_unique_exact; lia).
      assert (loc_of (2 * z) 2 z = loc_Exact) as ->.
      { unfold loc_of. by replace (2 * z - z * 2) with 0 by lia. }
      simpl round_nearest_even. unfold round_carry.
      destruct (Z.eqb_spec z (2 ^ 53)); [lia|].
      eexists _, _. split; [done|]. f_equal. f_equal.
      change (2 ^ (52 - 52)) with 1. lia.
    + rewrite (binary_normalize_round z) by lia. cbv zeta.
      assert (53 ≤ Z.log2 z) by (apply Z.log2_le_pow2; lia).
      set (n := Z.log2 z - 52). replace (Z.succ (Z.log2 z) - 52) with (Z.succ n) by (unfold n; lia).
      rewrite Z.pow_succ_r by (unfold n; lia).
      assert (0 < 2 ^ n) by (apply Z.pow_pos_nonneg; unfold n; lia).
      replace (2 * z / (2 * 2 ^ n)) with (z / 2 ^ n) by (by rewrite Z.div_mul_cancel_l by lia).
      rewrite loc_of_scale by lia.
      set (m0 := round_nearest_even _ _).
      unfold round_carry. destruct (Z.eqb_spec m0 (2 ^ 53)).
      * eexists _, _. split; [done|]. f_equal; lia.
      * eexists _, _. split; [done|]. f_equal; lia.
Qed.

(** ** Division of normalized floats *)

(** [SFdiv_core_binary] on two 53-bit mantissas: the quotient of the
    dividend shifted by 53 bits, and the location of the remainder. *)
Lemma div_eucl_div_mod a b : Z.div_eucl a b = (a / b, a mod b).
Proof. unfold Z.div, Z.modulo. by destruct (Z.div_eucl a b). Qed.

Lemma SFdiv_core_normal ma ea mb eb :
  2 ^ 52 ≤ ma < 2 ^ 53 → 2 ^ 52 ≤ mb < 2 ^ 53 → -1021 ≤ ea - eb →
  SFdiv_core_binary prec emax ma ea mb eb
  = (ma * 2 ^ 53 / mb, ea - eb - 53, loc_of (ma * 2 ^ 53) mb (ma * 2 ^ 53 / mb)).
Proof.
  intros Ha Hb He. unfold SFdiv_core_binary.
  rewrite (Zdigits2_unique ma 53), (Zdigits2_unique mb 53) by lia.
  replace (53 + ea - (53 + eb)) with (ea - eb) by lia.
  rewrite fexp_normal by lia.
  replace (Z.min (ea - eb - 53) (ea - eb)) with (ea - eb - 53) by lia.
  replace (ea - eb - (ea - eb - 53)) with 53 by lia.
  cbv beta iota zeta. rewrite Z.shiftl_mul_pow2 by lia.
  rewrite div_eucl_div_mod. f_equal.
  rewrite Z.mod_eq by lia.
  replace (ma * 2 ^ 53 - mb * (ma * 2 ^ 53 / mb))
    with (ma * 2 ^ 53 - ma * 2 ^ 53 / mb * mb) by lia.
  apply new_location_loc_of; [lia|].
  pose proof (Z.mod_pos_bound (ma * 2 ^ 53) mb ltac:(lia)) as Hm.
  rewrite Z.mod_eq in Hm by lia. lia.
Qed.

(** The quotient of two normalized floats, as [binary_round_aux] rounds it. *)
Lemma SFdiv_normal ma ea mb eb :
  2 ^ 52 ≤ ma < 2 ^ 53 → 2 ^ 52 ≤ mb < 2 ^ 53 → -1000 ≤ ea - eb ≤ 1000 →
  ∃ t m0,
    (t = 53 ∨ t = 52) ∧
    2 ^ 52 * mb ≤ ma * 2 ^ t < 2 ^ 53 * mb ∧
    is_rne (ma * 2 ^ t) mb m0 ∧
    SFdiv prec emax (S754_finite false (Z.to_pos ma) ea)
                    (S754_finite false (Z.to_pos mb) eb)
    = let '(m, e) := round_carry m0 (ea - eb - t) in
      S754_finite false (Z.to_pos m) e.
Proof.
  intros Ha Hb He. unfold SFdiv. rewrite !Z2Pos.id by lia.
  rewrite SFdiv_core_normal by lia. simpl xorb.
  set (N := ma * 2 ^ 53). set (q := N / mb).
  assert (0 ≤ N - q * mb < mb) as Hr.
  { pose proof (Z.mod_pos_bound N mb ltac:(lia)) as Hm.
    rewrite Z.mod_eq in Hm by lia. unfold q. lia. }
  assert (2 ^ 52 ≤ q < 2 ^ 54) as Hq.
  { unfold q, N. split.
    - apply Z.div_le_lower_bound; nia.
    - apply Z.div_lt_upper_bound; nia. }
  destruct (Z.lt_ge_cases q (2 ^ 53)) as [Hlt|Hge].
  - exists 53, (round_nearest_even q (loc_of N mb q)). split; [by left|].
    split; [fold N; nia|]. split.
    { by apply round_nearest_even_is_rne; [lia|]. }
    rewrite (binary_round_aux_finish _ _ _ _
               (shr_record_of_loc q (loc_of N mb q)) (ea - eb - 53));
      [|apply shr_fexp_53; lia|rewrite shr_m_record_of_loc; lia|lia].
    by rewrite shr_m_record_of_loc, loc_of_shr_record_of_loc, round_finish_carry.
  - exists 52, (round_nearest_even (q / 2) (loc_of N (2 * mb) (q / 2))).
    split; [by right|].
    assert (N = 2 * (ma * 2 ^ 52)) as HN by (unfold N; lia).
    assert (2 ^ 52 ≤ q / 2 < 2 ^ 53) as Hq2.
    { split; [apply Z.div_le_lower_bound | apply Z.div_lt_upper_bound]; lia. }
    assert (0 ≤ N - q / 2 * (2 * mb) < 2 * mb) as Hr2.
    { pose proof (Z.div_mod q 2 ltac:(lia)).
      pose proof (Z.mod_pos_bound q 2 ltac:(lia)). nia. }
    split; [nia|]. split.
    { apply (is_rne_scale _ _ _ 2); [lia|]. rewrite <- HN.
      by apply round_nearest_even_is_rne; [lia|]. }
    rewrite (binary_round_aux_finish _ _ _ _
               (shr_1 (shr_record_of_loc q (loc_of N mb q))) (ea - eb - 53 + 1)).
    + rewrite shr_m_shr_1, shr_m_record_of_loc by (rewrite shr_m_record_of_loc; lia).
      rewrite shr_1_loc_of by lia. rewrite round_finish_carry.
      by replace (ea - eb - 53 + 1) with (ea - eb - 52) by lia.
    + by rewrite (shr_fexp_more _ _ _ 1) by (simpl; lia).
    + rewrite shr_m_shr_1, shr_m_record_of_loc by (rewrite shr_m_record_of_loc; lia).
      done.
    + lia.
Qed.

(** Division sees only the difference of the exponents. *)
Lemma SFdiv_shift s1 m1 e1 s2 m2 e2 :
  SFdiv prec emax (S754_finite s1 m1 (e1 + 1)) (S754_finite s2 m2 (e2 + 1))
  = SFdiv prec emax (S754_finite s1 m1 e1) (S754_finite s2 m2 e2).
Proof.
  unfold SFdiv, SFdiv_core_binary.
  replace (Zdigits2 (Z.pos m1) + (e1 + 1) - (Zdigits2 (Z.pos m2) + (e2 + 1)))
    with (Zdigits2 (Z.pos m1) + e1 - (Zdigits2 (Z.pos m2) + e2)) by lia.
  by replace (e1 + 1 - (e2 + 1)) with (e1 - e2) by lia.
Qed.

(** [is_rounding] depends on [a] and [b] through their ratio only, and it
    determines the float. *)
Lemma is_rounding_ratio a b a' b' m e :
  0 < a → 0 < b → 0 < a' → 0 < b' → a * b' = a' * b →
  is_rounding a b m e → is_rounding a' b' m e.
Proof.
  intros Ha Hb Ha' Hb' Heq (t & m0 & Ht & Hbin & Hrne & Hme).
  exists t, m0. assert (0 < 2 ^ t) by (apply Z.pow_pos_nonneg; lia).
  split; [done|]. split; [nia|]. split; [|done].
  apply (is_rne_scale _ _ _ b); [done|].
  replace (b * (a' * 2 ^ t)) with (b' * (a * 2 ^ t)) by nia.
  rewrite (Z.mul_comm b b'). by apply is_rne_scale.
Qed.

Lemma is_rounding_unique a b m e m' e' :
  0 < a → 0 < b →
  is_rounding a b m e → is_rounding a b m' e' → m = m' ∧ e = e'.
Proof.
  intros Ha Hb (t & m0 & Ht & Hbin & Hrne & Hme) (t' & m0' & Ht' & Hbin' & Hrne' & Hme').
  assert (t = t') as <-.
  { destruct (Z.lt_trichotomy t t') as [Hlt|[->|Hlt]]; [exfalso|done|exfalso].
    - assert (2 * 2 ^ t ≤ 2 ^ t').
      { rewrite <- Z.pow_succ_r by done. apply Z.pow_le_mono_r; lia. }
      nia.
    - assert (2 * 2 ^ t' ≤ 2 ^ t).
      { rewrite <- Z.pow_succ_r by done. apply Z.pow_le_mono_r; lia. }
      nia. }
  assert (m0 = m0') as <- by (by eapply is_rne_unique).
  rewrite <- Hme' in Hme. by injection Hme.
Qed.

(** The quotient of the floats of two integers [0 < a <= b < 2^63] is the
    quotient of the integers they were rounded to, rounded. *)
Lemma SFdiv_int_floats a b :
  0 < a → a ≤ b → b < 2 ^ 63 →
  ∃ m e,
    SFdiv prec emax (binary_normalize prec emax a 0 false)
                    (binary_normalize prec emax b 0 false)
    = S754_finite false (Z.to_pos m) e ∧
    2 ^ 52 ≤ m < 2 ^ 53 ∧ is_rounding (round_int a) (round_int b) m e.
Proof.
  intros Ha Hab Hb.
  destruct (binary_normalize_int a ltac:(lia)) as (ma & ea & -> & Hma & Hea & HVa).
  destruct (binary_normalize_int b ltac:(lia)) as (mb & eb & -> & Hmb & Heb & HVb).
  pose proof (round_int_mono a b Ha Hab Hb) as Hmono.
  pose proof (round_int_error a ltac:(lia)) as [HVa0 _].
  set (Va := round_int a) in *. set (Vb := round_int b) in *.
  assert (0 < 2 ^ (ea + 52)) as Hpa by (apply Z.pow_pos_nonneg; lia).
  assert (0 < 2 ^ (eb + 52)) as Hpb by (apply Z.pow_pos_nonneg; lia).
  assert (ea ≤ eb) as Hee.
  { destruct (Z.le_gt_cases ea eb) as [|Hgt]; [done|exfalso].
    assert (2 ^ (eb + 52 + 1) ≤ 2 ^ (ea + 52)) as Hp
      by (apply Z.pow_le_mono_r; lia).
    rewrite pow2_split in Hp by lia. change (2 ^ 1) with 2 in Hp. nia. }
  destruct (SFdiv_normal ma ea mb eb) as (t' & m0 & Ht' & Hbin & Hrne & ->);
    [done|done|lia|].
  set (t := t' - ea + eb).
  assert (ma * 2 ^ t' * 2 ^ (eb + 52) = 2 ^ 52 * (Va * 2 ^ t)) as HN.
  { rewrite (Z.mul_assoc (2 ^ 52)), (Z.mul_comm (2 ^ 52) Va), HVa.
    rewrite <- !Z.mul_assoc, <- !pow2_split by (unfold t; lia).
    do 2 f_equal. unfold t. lia. }
  assert (0 < 2 ^ t) as Hpt by (apply Z.pow_pos_nonneg; unfold t; lia).
  assert (is_rne (Va * 2 ^ t) Vb m0) as Hrne'.
  { apply (is_rne_scale _ _ _ (2 ^ 52)); [lia|].
    rewrite <- HN, (Z.mul_comm (2 ^ 52) Vb), HVb.
    rewrite (Z.mul_comm (ma * 2 ^ t')), (Z.mul_comm mb).
    by apply is_rne_scale. }
  assert (2 ^ 52 ≤ m0 ≤ 2 ^ 53) as Hm0 by (destruct Hrne as [Hrne _]; nia).
  exists (round_carry m0 (ea - eb - t')).1, (round_carry m0 (ea - eb - t')).2.
  split; [by destruct (round_carry m0 (ea - eb - t'))|].
  assert (is_rounding Va Vb (round_carry m0 (ea - eb - t')).1
                            (round_carry m0 (ea - eb - t')).2) as Hround.
  { exists t, m0. split; [unfold t; lia|]. split; [nia|]. split; [done|].
    replace (- t) with (ea - eb - t') by (unfold t; lia).
    by destruct (round_carry m0 (ea - eb - t')). }
  split; [|done].
  unfold round_carry. destruct (Z.eqb_spec m0 (2 ^ 53)); simpl; lia.
Qed.

(** ** The floats of integers and their quotients *)

(** [Z2F z] is the float [binary_normalize] describes. *)
Lemma Prim2SF_Z2F z :
  0 < z < 2 ^ 63 → Prim2SF (Z2F z) = binary_normalize prec emax z 0 false.
Proof.
  intros Hz. unfold Z2F. apply Prim2SF_SF2Prim.
  destruct (binary_normalize_int z Hz) as (m & e & -> & Hm & He & _).
  apply valid_binary_normal; lia.
Qed.

(** On the integers a length can be, [Z2F] is the conversion of the
    processor. *)
Lemma Z2F_of_uint63 z :
  0 < z < 2 ^ 63 → Z2F z = of_uint63 (Uint63.of_Z z).
Proof.
  intros Hz. apply Prim2SF_inj. rewrite Prim2SF_Z2F, of_uint63_spec by done.
  rewrite Uint63.of_Z_spec. rewrite Z.mod_small; [done|].
  change wB with (2 ^ 63). lia.
Qed.

(** [float(z)] is finite and non-zero for [0 < z < 2^63]. *)
Lemma Z2F_finite_nonzero z :
  0 < z < 2 ^ 63 → is_infinity (Z2F z) = false ∧ (Z2F z =? 0)%float = false.
Proof.
  intros Hz. unfold is_infinity.
  rewrite !FloatAxioms.eqb_spec, FloatAxioms.abs_spec, Prim2SF_Z2F by done.
  by destruct (binary_normalize_int z Hz) as (m & e & -> & _).
Qed.

(** The quotient [a / float(b)] of [py_truediv], for [0 < a <= b < 2^63]. *)
Lemma F_div_rounding a b :
  0 < a → a ≤ b → b < 2 ^ 63 →
  ∃ m e,
    Prim2SF (Z2F a / Z2F b) = S754_finite false (Z.to_pos m) e ∧
    2 ^ 52 ≤ m < 2 ^ 53 ∧ is_rounding (round_int a) (round_int b) m e.
Proof.
  intros Ha Hab Hb. rewrite FloatAxioms.div_spec, !Prim2SF_Z2F by lia.
  by apply SFdiv_int_floats.
Qed.

(** Below [2^53] the quotient of the floats of two integers depends only on
    their ratio. *)
Lemma F_div_ratio a b a' b' :
  0 < a → a ≤ b → b < 2 ^ 53 → 0 < a' → a' ≤ b' → b' < 2 ^ 53 →
  a * b' = a' * b →
  (Z2F a / Z2F b)%float = (Z2F a' / Z2F b')%float.
Proof.
  intros Ha Hab Hb Ha' Hab' Hb' Heq. apply Prim2SF_inj.
  destruct (F_div_rounding a b Ha Hab ltac:(lia)) as (m & e & -> & _ & Hr).
  destruct (F_div_rounding a' b' Ha' Hab' ltac:(lia)) as (m' & e' & -> & _ & Hr').
  rewrite !round_int_exact in Hr, Hr' by lia.
  apply (is_rounding_ratio a b a' b') in Hr; [|lia..].
  by destruct (is_rounding_unique a' b' m e m' e' ltac:(lia) ltac:(lia) Hr Hr') as [-> ->].
Qed.

(** Doubling both integers does not change the quotient of their floats. *)
Lemma F_div_double a b :
  0 < a → 0 < b → 2 * a < 2 ^ 63 → 2 * b < 2 ^ 63 →
  (Z2F (2 * a) / Z2F (2 * b))%float = (Z2F a / Z2F b)%float.
Proof.
  intros Ha Hb Ha2 Hb2. apply Prim2SF_inj.
  rewrite !FloatAxioms.div_spec, !Prim2SF_Z2F by lia.
  destruct (binary_normalize_double a Ha Ha2) as (ma & ea & -> & ->).
  destruct (binary_normalize_double b Hb Hb2) as (mb & eb & -> & ->).
  apply SFdiv_shift.
Qed.

(** The three roundings of [a / float(b)], in integers: with [U = 2^53],
    [X1 = m0 * Vb], [X2 = Va * S], [X3 = a * S] and [X4 = m0 * b]. *)
Lemma three_roundings (X1 X2 X3 X4 : Z) :
  0 < X3 →
  2 ^ 53 * Z.abs (X1 - X2) ≤ X2 →
  2 ^ 53 * Z.abs (X2 - X3) ≤ X3 →
  2 ^ 53 * Z.abs (X1 - X4) ≤ X4 →
  2 ^ 51 * Z.abs (X4 - X3) ≤ X3.
Proof. lia. Qed.

(** The value of a probability [a / float(b)] for [0 < a <= b < 2^63]: a
    positive finite float of value at most 1, within relative error [2^-51]
    of [a / b]. *)
Lemma F_div_value a b :
  0 < a → a ≤ b → b < 2 ^ 63 →
  ∃ m e, Prim2SF (Z2F a / Z2F b) = S754_finite false m e ∧
  (0 < F2Q (Z2F a / Z2F b) ∧ F2Q (Z2F a / Z2F b) <= 1 ∧
   Qabs (F2Q (Z2F a / Z2F b) - (a # Z.to_pos b)) <= (a # Z.to_pos b) * (1 # 2 ^ 51))%Q.
Proof.
  intros Ha Hab Hb.
  destruct (F_div_rounding a b Ha Hab Hb)
    as (m & e & Hsf & Hm & t & m0 & Ht & Hbin & [Hrne _] & Hme).
  pose proof (round_int_mono a b Ha Hab Hb) as Hmono.
  pose proof (round_int_error a ltac:(lia)) as [HVa HEa].
  pose proof (round_int_error b ltac:(lia)) as [HVb HEb].
  set (Va := round_int a) in *. set (Vb := round_int b) in *.
  exists (Z.to_pos m), e. split; [done|]. unfold F2Q. rewrite Hsf.
  assert (0 < 2 ^ t) as Hpt by (apply Z.pow_pos_nonneg; lia).
  assert (2 ^ 52 ≤ 2 ^ t) as Ht52 by nia.
  assert (52 ≤ t) as Ht' by (apply (Z.pow_le_mono_r_iff 2); lia).
  assert (m0 ≤ 2 ^ t) as Hm0 by nia.
  assert (2 ^ 52 ≤ m0) as Hm0' by nia.
  assert (SF2Q (S754_finite false (Z.to_pos m) e) == m0 # Z.to_pos (2 ^ t))%Q as ->.
  { unfold round_carry in Hme. simpl.
    destruct (Z.eqb_spec m0 (2 ^ 53)) as [->|Hne]; injection Hme as -> ->.
    - destruct (Z.leb_spec 0 (- t + 1)) as [|_]; [lia|].
      assert (2 ^ t = 2 * 2 ^ (- (- t + 1))) as Hp.
      { rewrite <- Z.pow_succ_r by lia. f_equal. lia. }
      assert (0 < 2 ^ (- (- t + 1))) by (apply Z.pow_pos_nonneg; lia).
      unfold Qeq. simpl. rewrite !Z2Pos.id by lia. lia.
    - destruct (Z.leb_spec 0 (- t)) as [|_]; [lia|].
      rewrite Z.opp_involutive. unfold Qeq. simpl. rewrite !Z2Pos.id by lia. lia. }
  assert (2 ^ 51 * Z.abs (m0 * b - a * 2 ^ t) ≤ a * 2 ^ t) as Herr.
  { apply (three_roundings (m0 * Vb) (Va * 2 ^ t)); nia. }
  unfold Qlt, Qle, Qabs, Qminus, Qplus, Qopp, Qmult. simpl.
  rewrite !Pos2Z.inj_mul, !Z2Pos.id by lia.
  split; [lia|]. split; [lia|]. nia.
Qed.

(** ** Counters *)

Lemma counter_set_keys c v (cnt : Counter) :
  (counter_set c v cnt).*1 = if decide (c ∈ cnt.*1) then cnt.*1 else cnt.*1 ++ [c].
Proof.
  induction cnt as [|[k w] cnt IH]; [done|]. cbn [counter_set].
  destruct (decide (k = c)) as [->|Hne]; rewrite !fmap_cons; cbn [fst].
  - rewrite decide_True by constructor. done.
  - rewrite IH. destruct (decide (c ∈ cnt.*1)).
    + rewrite decide_True by (by constructor). done.
    + rewrite decide_False; [done|]. rewrite elem_of_cons. intros [?|?]; congruence.
Qed.

Lemma counter_get_set c v k (cnt : Counter) :
  counter_get k (counter_set c v cnt) = if decide (k = c) then v else counter_get k cnt.
Proof.
  induction cnt as [|[k' w] cnt IH]; simpl.
  - destruct (decide (c = k)), (decide (k = c)); congruence.
  - destruct (decide (k' = c)) as [->|Hne]; simpl.
    + destruct (decide (c = k)), (decide (k = c)); congruence.
    + destruct (decide (k' = k)) as [->|]; [by rewrite decide_False|apply IH].
Qed.

Lemma counter_total_set c v (cnt : Counter) :
  counter_total (counter_set c v cnt) = counter_total cnt - counter_get c cnt + v.
Proof.
  unfold counter_total.
  induction cnt as [|[k w] cnt IH]; [simpl; lia|]. cbn [counter_set counter_get].
  destruct (decide (k = c)); rewrite !fmap_cons; cbn [snd foldr]; lia.
Qed.

Lemma counter_incr_keys c (cnt : Counter) :
  (counter_incr c cnt).*1 = if decide (c ∈ cnt.*1) then cnt.*1 else cnt.*1 ++ [c].
Proof. apply counter_set_keys. Qed.

Lemma counter_get_incr c k (cnt : Counter) :
  counter_get k (counter_incr c cnt)
  = counter_get k cnt + (if decide (k = c) then 1 else 0).
Proof.
  unfold counter_incr. rewrite counter_get_set.
  destruct (decide (k = c)) as [->|]; lia.
Qed.

Lemma counter_total_incr c (cnt : Counter) :
  counter_total (counter_incr c cnt) = counter_total cnt + 1.
Proof. unfold counter_incr. rewrite counter_total_set. lia. Qed.

(** A counter whose keys are distinct is the table of its own lookups. *)
Lemma counter_tabulate (cnt : Counter) :
  NoDup cnt.*1 → cnt = (λ k, (k, counter_get k cnt)) <$> cnt.*1.
Proof.
  induction cnt as [|[k w] cnt IH]; [done|]. rewrite !fmap_cons. cbn [fst].
  intros [Hk Hnd]%NoDup_cons. cbn [counter_get]. rewrite decide_True by done.
  f_equal. rewrite IH at 1 by done.
  apply list_fmap_ext. intros _ k' Hk'%list_elem_of_lookup_2.
  rewrite decide_False; [done|]. by intros ->.
Qed.

(** ** Distinct elements *)

Lemma distinct_elem_of {A : Type} `{EqDecision A} (l : list A) x :
  x ∈ distinct l ↔ x ∈ l.
Proof.
  induction l as [|y l IH]; simpl; [done|].
  rewrite !elem_of_cons, list_elem_of_filter, IH.
  destruct (decide (x = y)); intuition congruence.
Qed.

Lemma distinct_NoDup {A : Type} `{EqDecision A} (l : list A) : NoDup (distinct l).
Proof.
  induction l as [|y l IH]; simpl; constructor.
  - rewrite list_elem_of_filter. intros [? _]. congruence.
  - by apply NoDup_filter.
Qed.

Lemma distinct_snoc {A : Type} `{EqDecision A} (l : list A) x :
  distinct (l ++ [x]) = if decide (x ∈ l) then distinct l else distinct l ++ [x].
Proof.
  induction l as [|y l IH]; simpl; [done|]. rewrite IH.
  destruct (decide (x ∈ l)) as [Hin|Hnin].
  - rewrite decide_True by (by constructor). done.
  - rewrite filter_app. destruct (decide (x = y)) as [->|Hne].
    + rewrite decide_True by constructor.
      rewrite filter_cons_False by (intros ?; congruence). by rewrite app_nil_r.
    + rewrite decide_False by (rewrite elem_of_cons; intros [?|?]; congruence).
      by rewrite filter_cons_True by done.
Qed.

(** The counter obtained by counting the characters [cs] one by one. *)
Lemma counter_of_chars (cs : list ascii) :
  let cnt := foldl (λ cnt c, counter_incr c cnt) [] cs in
  cnt.*1 = distinct cs ∧
  (∀ c, counter_get c cnt = Z.of_nat (length (filter (λ c', c' = c) cs))) ∧
  counter_total cnt = Z.of_nat (length cs).
Proof.
  induction cs as [|c cs IH] using rev_ind; simpl; [done|].
  rewrite foldl_snoc. destruct IH as (Hk & Hg & Ht). split_and!.
  - rewrite counter_incr_keys, distinct_snoc, Hk.
    destruct (decide (c ∈ cs)).
    + by rewrite decide_True by (by apply distinct_elem_of).
    + by rewrite decide_False by (by rewrite distinct_elem_of).
  - intros k. rewrite counter_get_incr, Hg, filter_app, length_app.
    destruct (decide (k = c)) as [->|Hne].
    + rewrite filter_cons_True by done. simpl. lia.
    + rewrite filter_cons_False by (intros ?; congruence). simpl. lia.
  - rewrite counter_total_incr, Ht, length_app. simpl. lia.
Qed.

(** ** The counting loop of [train_char_lm] *)

(** A loop whose body never raises on the elements it meets is a fold. *)
Lemma for_each_foldl {I A S T : Type} (body : S → A → res S) (step : S → T → S)
    (f : I → A) (g : I → option T) (ks : list I) (s : S) :
  (∀ k s, k ∈ ks → ∃ t, g k = Some t ∧ body s (f k) = Ok (step s t)) →
  for_each body (f <$> ks) s = Ok (foldl step s (omap g ks)).
Proof.
  revert s. induction ks as [|k ks IH]; intros s Hks; [done|]. csimpl.
  destruct (Hks k s ltac:(left)) as (t & -> & ->). simpl.
  apply IH. intros k' s' Hk'. apply Hks. by right.
Qed.

(** The slice and the index of the loop body at position [k] of the corpus. *)
Lemma py_slice_window {A : Type} (data : list A) (k o : nat) :
  (k + o ≤ length data)%nat →
  py_slice data (Z.of_nat k) (Z.of_nat k + Z.of_nat o) = take o (drop k data).
Proof.
  intros Hlen. unfold py_slice, slice_bound, py_len.
  destruct (Z.ltb_spec (Z.of_nat k) 0); [lia|].
  destruct (Z.ltb_spec (Z.of_nat k + Z.of_nat o) 0); [lia|].
  f_equal; [lia|]. f_equal. lia.
Qed.

Lemma py_index_nat {A : Type} (data : list A) (j : nat) (x : A) :
  data !! j = Some x → py_index data (Z.of_nat j) = Ok x.
Proof.
  intros Hx. unfold py_index.
  destruct (Z.ltb_spec (Z.of_nat j) 0); [lia|].
  destruct (Z.ltb_spec (Z.of_nat j) 0); [lia|].
  by rewrite Nat2Z.id, Hx.
Qed.

(** For [order >= 0] the loop never raises, and it counts exactly the
    transitions of the reference, in their order. *)
Lemma train_loop_transitions (contents : pystr) (o : nat) :
  let data := py_str_mul sentinel (Z.of_nat o) ++ contents in
  for_each
    (λ lm i,
       let history := py_slice data i (i + Z.of_nat o) in
       char ← py_index data (i + Z.of_nat o);
       Ok (lm_incr history char lm))
    (py_range (py_len data - Z.of_nat o)) ∅
  = Ok (foldl (λ lm t, lm_incr t.1 t.2 lm) ∅ (ref_transitions contents o)).
Proof.
  intros data.
  assert (data = ref_padded contents o) as Hdata.
  { unfold data, ref_padded, py_str_mul. by rewrite Nat2Z.id. }
  assert (length data = (o + length contents)%nat) as Hlen.
  { rewrite Hdata. unfold ref_padded. by rewrite length_app, length_replicate. }
  unfold ref_transitions. rewrite <- Hdata.
  replace (length data - o)%nat with (length contents) by lia.
  replace (py_len data - Z.of_nat o) with (Z.of_nat (length contents))
    by (unfold py_len; lia).
  unfold py_range, seqZ. rewrite Nat2Z.id.
  replace (seq o (length contents)) with (Nat.add o <$> seq 0 (length contents))
    by (rewrite fmap_add_seq; f_equal; lia).
  erewrite (for_each_foldl _ (λ lm t, lm_incr t.1 t.2 lm) _
              (λ k, ref_transition data o (o + k))).
  - f_equal. f_equal. induction (seq 0 (length contents)) as [|k ks IH]; [done|].
    csimpl. rewrite IH. done.
  - intros k lm Hk%elem_of_seq. simpl in Hk.
    destruct (lookup_lt_is_Some_2 data (o + k)) as [c Hc]; [lia|].
    exists (take o (drop k data), c). split.
    + unfold ref_transition. rewrite Hc. simpl.
      by replace (o + k - o)%nat with k by lia.
    + simpl. rewrite Z.add_0_r, py_slice_window by lia.
      replace (Z.of_nat k + Z.of_nat o) with (Z.of_nat (o + k)) by lia.
      by rewrite (py_index_nat _ _ c).
Qed.

(** The counter a history is bound to after counting the transitions [ts]. *)
Lemma lm_fold_lookup (ts : list (pystr * ascii)) (h : pystr) :
  foldl (λ lm t, lm_incr t.1 t.2 lm) ∅ ts !! h
  = if decide ((filter (λ t, t.1 = h) ts).*2 = []) then None
    else Some (foldl (λ cnt c, counter_incr c cnt) [] (filter (λ t, t.1 = h) ts).*2).
Proof.
  induction ts as [|[h' c] ts IH] using rev_ind; [done|].
  rewrite foldl_snoc, filter_app.
  set (lm := foldl _ ∅ ts) in *. unfold lm_incr. simpl fst. simpl snd.
  destruct (decide (h' = h)) as [->|Hne].
  - rewrite lookup_insert_eq, filter_cons_True by done.
    rewrite filter_nil, fmap_app. change ([(h, c)].*2) with [c].
    rewrite foldl_snoc, decide_False by (by intros []%app_eq_nil).
    rewrite IH. by case_decide as Hnil; [rewrite Hnil|].
  - rewrite lookup_insert_ne by done.
    rewrite filter_cons_False by done. by rewrite filter_nil, app_nil_r.
Qed.

(** ** The dict comprehension *)

Lemma dict_comprehension_ok {V W : Type} (f : V → res W) (g : V → W)
    (m : gmap pystr V) :
  (∀ k v, m !! k = Some v → f v = Ok (g v)) →
  dict_comprehension f m = Ok (g <$> m).
Proof.
  unfold dict_comprehension.
  apply (map_fold_weak_ind (λ r m,
    (∀ k v, m !! k = Some v → f v = Ok (g v)) → r = Ok (g <$> m))).
  - intros _. by rewrite fmap_empty.
  - intros k v m' r Hk IH Hf. rewrite IH.
    + simpl. rewrite (Hf k v) by apply lookup_insert_eq. simpl.
      by rewrite fmap_insert.
    + intros k' v' Hk'. apply (Hf k'). rewrite lookup_insert_ne; [done|].
      intros ->. congruence.
Qed.

(** The same for a list comprehension. *)
Lemma mapM_res_ok {A B : Type} (f : A → res B) (g : A → B) (l : list A) :
  (∀ x, x ∈ l → f x = Ok (g x)) → mapM f l = Ok (g <$> l).
Proof.
  induction l as [|x l IH]; intros Hf; [done|]. simpl.
  rewrite (Hf x) by left. simpl. rewrite IH; [done|].
  intros y Hy. apply Hf. by right.
Qed.

(** ** [normalize] on counters of positive counts *)

Lemma counter_total_ge (cnt : Counter) c n :
  (∀ c n, (c, n) ∈ cnt → 0 < n) → (c, n) ∈ cnt → n ≤ counter_total cnt.
Proof.
  unfold counter_total. induction cnt as [|[c' n'] cnt IH]; intros Hpos Hin.
  { by apply elem_of_nil in Hin. }
  rewrite fmap_cons. cbn [snd foldr].
  assert (0 ≤ foldr Z.add 0 cnt.*2) as Hnn.
  { clear -Hpos. induction cnt as [|[c1 n1] cnt IH]; [done|].
    rewrite fmap_cons. cbn [snd foldr].
    pose proof (Hpos c1 n1 ltac:(right; left)).
    assert (0 ≤ foldr Z.add 0 cnt.*2); [|lia].
    apply IH. intros c2 n2 H2. apply (Hpos c2 n2).
    apply elem_of_cons in H2 as [->|H2]; [left|right; by right]. }
  pose proof (Hpos c' n' ltac:(left)).
  apply elem_of_cons in Hin as [[= -> ->]|Hin]; [lia|].
  assert (n ≤ foldr Z.add 0 cnt.*2); [|lia].
  apply IH; [|done]. intros c2 n2 H2. apply (Hpos c2 n2). by right.
Qed.

(** On a non-empty counter of positive counts whose total a [str] could have
    produced, [normalize] raises nothing and divides each count by the total. *)
Lemma normalize_ok (cnt : Counter) :
  cnt ≠ [] → (∀ c n, (c, n) ∈ cnt → 0 < n) → counter_total cnt ≤ sys_maxsize →
  normalize cnt
  = Ok ((λ '(c, n), (c, (Z2F n / Z2F (counter_total cnt))%float)) <$> cnt).
Proof.
  intros Hne Hpos Hmax. unfold sys_maxsize in Hmax.
  assert (0 < counter_total cnt) as Htot.
  { destruct cnt as [|[c n] cnt]; [done|].
    pose proof (Hpos c n ltac:(left)).
    pose proof (counter_total_ge ((c, n) :: cnt) c n Hpos ltac:(left)). lia. }
  unfold normalize, py_float.
  destruct (Z2F_finite_nonzero (counter_total cnt) ltac:(lia)) as [-> Hnz]. simpl.
  apply mapM_res_ok. intros [c n] Hin.
  pose proof (Hpos c n Hin). pose proof (counter_total_ge cnt c n Hpos Hin).
  unfold py_truediv, py_float.
  destruct (Z2F_finite_nonzero n ltac:(lia)) as [-> _]. simpl. by rewrite Hnz.
Qed.

(** The counter of a history, after counting the characters [cs] observed
    after it: its pairs, in terms of the characters. *)
Lemma counter_of_chars_pairs (cs : list ascii) :
  let cnt := foldl (λ cnt c, counter_incr c cnt) [] cs in
  cnt = (λ c, (c, Z.of_nat (length (filter (λ c', c' = c) cs)))) <$> distinct cs ∧
  (∀ c n, (c, n) ∈ cnt → 0 < n) ∧
  counter_total cnt = Z.of_nat (length cs).
Proof.
  intros cnt. destruct (counter_of_chars cs) as (Hk & Hg & Ht). fold cnt in Hk, Hg, Ht.
  assert (cnt = (λ c, (c, Z.of_nat (length (filter (λ c', c' = c) cs)))) <$> distinct cs)
    as Hcnt.
  { rewrite (counter_tabulate cnt) by (rewrite Hk; apply distinct_NoDup).
    rewrite Hk. apply list_fmap_ext. intros _ c _. by rewrite Hg. }
  split; [done|]. split; [|done].
  intros c n Hin. rewrite Hcnt in Hin.
  apply list_elem_of_fmap in Hin as (c' & Heq & Hc).
  injection Heq as -> ->. apply (proj1 (distinct_elem_of cs c')) in Hc.
  assert (c' ∈ filter (λ c'', c'' = c') cs) as Hf.
  { apply list_elem_of_filter. by split. }
  destruct (filter _ cs); [by apply elem_of_nil in Hf|simpl; lia].
Qed.

(** No history has more observations than the corpus has characters. *)
Lemma length_omap_le {A B : Type} (f : A → option B) (l : list A) :
  (length (omap f l) ≤ length l)%nat.
Proof. induction l as [|x l IH]; [done|]. csimpl. destruct (f x); simpl; lia. Qed.

Lemma ref_total_le (contents : pystr) (o : nat) (h : pystr) :
  (ref_total contents o h ≤ length contents)%nat.
Proof.
  unfold ref_total, ref_observed, ref_transitions, ref_padded.
  rewrite length_fmap. etrans; [apply length_filter|].
  etrans; [apply length_omap_le|].
  rewrite length_seq, length_app, length_replicate. lia.
Qed.

(** ** What [train_char_lm] returns *)

(** For [order >= 0] and a corpus a [str] can hold, [train_char_lm] returns a
    table, and the table binds a history to the normalized counts of the
    characters observed after it. *)
Lemma train_char_lm_table (contents : pystr) (o : nat) :
  py_len contents ≤ sys_maxsize →
  ∃ lm, train_char_lm contents (Z.of_nat o) = Ok lm ∧
    ∀ h, lm !! h
         = if decide (ref_observed contents o h = []) then None
           else Some ((λ '(c, n), (c, (Z2F n / Z2F (Z.of_nat (ref_total contents o h)))%float))
                      <$> ((λ c, (c, Z.of_nat (ref_count contents o h c)))
                           <$> distinct (ref_observed contents o h))).
Proof.
  intros Hmax. unfold train_char_lm. cbv zeta.
  pose proof (train_loop_transitions contents o) as Hloop. cbv zeta in Hloop.
  rewrite Hloop. clear Hloop. simpl.
  set (lm0 := foldl _ ∅ _).
  set (g := λ cnt : Counter,
         (λ '(c, n), (c, (Z2F n / Z2F (counter_total cnt))%float)) <$> cnt).
  assert (∀ h cnt, lm0 !! h = Some cnt →
            ref_observed contents o h ≠ [] ∧
            cnt = (λ c, (c, Z.of_nat (ref_count contents o h c)))
                  <$> distinct (ref_observed contents o h) ∧
            (∀ c n, (c, n) ∈ cnt → 0 < n) ∧
            counter_total cnt = Z.of_nat (ref_total contents o h)) as Hlm.
  { intros h cnt Hh. unfold lm0 in Hh. rewrite lm_fold_lookup in Hh.
    fold (ref_observed contents o h) in Hh. case_decide as Hnil; [done|].
    injection Hh as <-. split; [done|].
    apply (counter_of_chars_pairs (ref_observed contents o h)). }
  rewrite (dict_comprehension_ok normalize g).
  - eexists. split; [done|]. intros h. rewrite lookup_fmap.
    destruct (lm0 !! h) as [cnt|] eqn:Hh; simpl.
    + destruct (Hlm h cnt Hh) as (Hne & Hcnt & _ & Htot).
      rewrite decide_False by done. f_equal. unfold g. by rewrite Htot, <- Hcnt.
    + unfold lm0 in Hh. rewrite lm_fold_lookup in Hh.
      fold (ref_observed contents o h) in Hh. by case_decide.
  - intros h cnt Hh. destruct (Hlm h cnt Hh) as (Hne & Hcnt & Hpos & Htot).
    apply normalize_ok; [|done|].
    + rewrite Hcnt. destruct (ref_observed contents o h); done.
    + rewrite Htot. pose proof (ref_total_le contents o h).
      unfold py_len in Hmax. lia.
Qed.

(** C1. For every corpus a [str] can hold and every [order >= 1],
    [train_char_lm] returns the reference table: a history is a key exactly
    when some transition from it was observed in the padded corpus, and it is
    then bound to the pairs (character, count / total), one per distinct
    observed successor; the table of the empty corpus is empty. *)
Theorem train_char_lm_is_reference (contents : pystr) (order : Z) :
  1 ≤ order → py_len contents ≤ sys_maxsize →
  ∃ lm, train_char_lm contents order = Ok lm ∧
        (∀ h, lm !! h = ref_table contents (Z.to_nat order) h) ∧
        (contents = [] → lm = ∅).
Proof.
  intros Ho Hmax.
  destruct (train_char_lm_table contents (Z.to_nat order) Hmax) as (lm & Hlm & Hh).
  rewrite Z2Nat.id in Hlm by lia. exists lm. split; [done|].
  assert (∀ h, lm !! h = ref_table contents (Z.to_nat order) h) as Href.
  { intros h. rewrite Hh. unfold ref_table, ref_dist, ref_total.
    destruct (ref_observed contents (Z.to_nat order) h) as [|c cs] eqn:Hobs.
    - by rewrite decide_True, decide_True.
    - rewrite decide_False, decide_False by done. f_equal.
      by rewrite <- list_fmap_compose. }
  split; [done|]. intros ->. apply map_eq. intros h.
  rewrite Href, lookup_empty. unfold ref_table.
  pose proof (ref_total_le [] (Z.to_nat order) h). simpl in *.
  by rewrite decide_True by lia.
Qed.

Lemma train_char_lm_is_reference_witness :
  ∃ lm, train_char_lm corpus_x 1 = Ok lm ∧
        (∀ h, lm !! h = ref_table corpus_x (Z.to_nat 1) h) ∧
        (corpus_x = [] → lm = ∅).
Proof.
  apply (train_char_lm_is_reference corpus_x 1); [lia | vm_compute; discriminate].
Defined.

(** C5, as the code has it. [train_char_lm] does not check [order]: for every
    [order >= 0], zero included, and every corpus a [str] can hold, the empty
    and the one-character corpus among them, it returns a table and raises
    nothing; the table of the empty corpus is empty. *)
Theorem train_char_lm_total (contents : pystr) (order : Z) :
  0 ≤ order → py_len contents ≤ sys_maxsize →
  (∃ lm, train_char_lm contents order = Ok lm) ∧
  train_char_lm [] order = Ok ∅.
Proof.
  intros Ho Hmax. split.
  - destruct (train_char_lm_table contents (Z.to_nat order) Hmax) as (lm & Hlm & _).
    rewrite Z2Nat.id in Hlm by lia. by exists lm.
  - destruct (train_char_lm_table [] (Z.to_nat order)) as (lm & Hlm & Hh).
    { vm_compute. discriminate. }
    rewrite Z2Nat.id in Hlm by lia. rewrite Hlm. f_equal.
    apply map_eq. intros h. rewrite Hh, lookup_empty.
    pose proof (ref_total_le [] (Z.to_nat order) h) as Hle. unfold ref_total in Hle.
    destruct (ref_observed [] (Z.to_nat order) h); [done|simpl in Hle; lia].
Qed.

Lemma train_char_lm_total_witness :
  (∃ lm, train_char_lm (str "a") 0 = Ok lm) ∧ train_char_lm [] 0 = Ok ∅.
Proof.
  apply (train_char_lm_total (str "a") 0); [lia | vm_compute; discriminate].
Defined.

(** C5, as stated, fails: with [order = 0] the corpus ["ab"] is not
    rejected; the result is the table that binds the empty history to the
    two characters, each with probability one half. *)
Lemma train_char_lm_order_0_accepted :
  train_char_lm (str "ab") 0
  = Ok {[ [] := [("a"%char, 0.5%float); ("b"%char, 0.5%float)] ]}.
Proof. vm_compute. reflexivity. Qed.

(** ** The probabilities of a trained table *)

(** The exact sum of the rounded quotients [n / float(T)] over a counter is
    within relative error [2^-51] of the sum of the exact quotients. *)
Lemma normalized_sum (cnt : Counter) (T : Z) :
  (∀ c n, (c, n) ∈ cnt → 0 < n ≤ T) → T < 2 ^ 63 →
  (Qabs (dist_sum ((λ '(c, n), (c, (Z2F n / Z2F T)%float)) <$> cnt)
         - (counter_total cnt # Z.to_pos T))
   <= (counter_total cnt # Z.to_pos T) * (1 # 2 ^ 51))%Q.
Proof.
  intros Hcnt HT. induction cnt as [|[c n] cnt IH].
  { vm_compute. discriminate. }
  rewrite fmap_cons. unfold counter_total. rewrite fmap_cons.
  cbn [dist_sum foldr snd]. fold (counter_total cnt).
  fold (dist_sum ((λ '(c0, n0), (c0, (Z2F n0 / Z2F T)%float)) <$> cnt)).
  set (S := dist_sum _) in *. set (tot := counter_total cnt) in *.
  destruct (Hcnt c n ltac:(left)) as [Hn HnT].
  destruct (F_div_value n T Hn HnT HT) as (_ & _ & _ & _ & _ & Hv).
  set (v := F2Q _) in *.
  assert ((n + tot # Z.to_pos T) == (n # Z.to_pos T) + (tot # Z.to_pos T))%Q as ->
    by (by rewrite Qinv_plus_distr).
  assert (v + S - ((n # Z.to_pos T) + (tot # Z.to_pos T))
          == (v - (n # Z.to_pos T)) + (S - (tot # Z.to_pos T)))%Q as -> by ring.
  eapply Qle_trans; [apply Qabs_triangle|].
  rewrite Qmult_plus_distr_l. apply Qplus_le_compat; [done|].
  apply IH. intros c' n' Hin. apply (Hcnt c' n'). by right.
Qed.

(** C2. For every corpus a [str] can hold and every [order >= 1],
    [train_char_lm] returns a table in which every distribution is
    non-empty, every probability is a positive finite float of value at most
    1, and the exact sum of the probabilities of a distribution is within
    [2^-51], hence within [1e-9], of 1. *)
Theorem train_char_lm_probabilities (contents : pystr) (order : Z) :
  1 ≤ order → py_len contents ≤ sys_maxsize →
  ∃ lm, train_char_lm contents order = Ok lm ∧
    ∀ h dist, lm !! h = Some dist →
      dist ≠ [] ∧
      Forall (λ cp, (∃ m e, Prim2SF cp.2 = S754_finite false m e) ∧
                    (0 < F2Q cp.2)%Q ∧ (F2Q cp.2 <= 1)%Q) dist ∧
      (Qabs (dist_sum dist - 1) <= 1 # 2 ^ 51)%Q ∧
      (Qabs (dist_sum dist - 1) <= 1 # 1000000000)%Q.
Proof.
  intros Ho Hlen.
  destruct (train_char_lm_table contents (Z.to_nat order) Hlen) as (lm & Hlm & Hh).
  unfold sys_maxsize in Hlen.
  rewrite Z2Nat.id in Hlm by lia. exists lm. split; [done|].
  intros h dist Hd. rewrite Hh in Hd. case_decide as Hobs; [done|].
  injection Hd as <-.
  set (o := Z.to_nat order) in *. set (cs := ref_observed contents o h) in *.
  set (T := Z.of_nat (ref_total contents o h)).
  set (cnt := (λ c, (c, Z.of_nat (ref_count contents o h c))) <$> distinct cs).
  destruct (counter_of_chars_pairs cs) as (Hcnt & Hpos & Htot).
  fold (ref_count contents o h) in Hcnt. cbv zeta in Hcnt, Hpos, Htot.
  unfold ref_count in cnt. fold cs in cnt. fold cnt in Hcnt.
  rewrite Hcnt in Hpos, Htot. change (Z.of_nat (length cs)) with T in Htot.
  assert (0 < T < 2 ^ 63) as HT.
  { pose proof (ref_total_le contents o h) as Hle. unfold py_len in Hlen.
    assert (0 < length cs)%nat as Hcs by (destruct cs; [done|simpl; lia]).
    unfold T. unfold ref_total in *. fold cs in Hle |- *. lia. }
  assert (∀ c n, (c, n) ∈ cnt → 0 < n ≤ T) as Hrange.
  { intros c n Hin. split; [by apply (Hpos c n)|].
    rewrite <- Htot. by apply (counter_total_ge cnt c n). }
  split; [|split].
  - unfold cnt. destruct cs; done.
  - apply Forall_fmap, Forall_forall. intros [c n] Hin. simpl.
    destruct (Hrange c n Hin) as [Hn HnT].
    destruct (F_div_value n T Hn HnT ltac:(lia)) as (m & e & Hsf & Hv1 & Hv2 & _).
    eauto.
  - pose proof (normalized_sum cnt T Hrange ltac:(lia)) as Hsum.
    rewrite Htot in Hsum.
    assert ((T # Z.to_pos T) == 1)%Q as HTT.
    { unfold Qeq. simpl. rewrite Z2Pos.id by lia. lia. }
    rewrite HTT, Qmult_1_l in Hsum. split; [done|].
    eapply Qle_trans; [exact Hsum|]. vm_compute. discriminate.
Qed.

Lemma train_char_lm_probabilities_witness :
  ∃ lm, train_char_lm corpus_x 1 = Ok lm ∧
    ∀ h dist, lm !! h = Some dist →
      dist ≠ [] ∧
      Forall (λ cp, (∃ m e, Prim2SF cp.2 = S754_finite false m e) ∧
                    (0 < F2Q cp.2)%Q ∧ (F2Q cp.2 <= 1)%Q) dist ∧
      (Qabs (dist_sum dist - 1) <= 1 # 2 ^ 51)%Q ∧
      (Qabs (dist_sum dist - 1) <= 1 # 1000000000)%Q.
Proof.
  apply (train_char_lm_probabilities corpus_x 1); [lia | vm_compute; discriminate].
Defined.

(** ** Scaling the counts *)

Lemma counter_total_scale (k : Z) (cnt : Counter) :
  counter_total (scale_counts k cnt) = k * counter_total cnt.
Proof.
  unfold counter_total, scale_counts.
  induction cnt as [|[c n] cnt IH]; [simpl; lia|].
  rewrite !fmap_cons. cbn [snd foldr]. rewrite IH. lia.
Qed.

(** The counts of a counter of positive counts add up to a positive total. *)
Lemma counter_total_pos (cnt : Counter) :
  cnt ≠ [] → (∀ c n, (c, n) ∈ cnt → 0 < n) → 0 < counter_total cnt.
Proof.
  intros Hne Hpos. destruct cnt as [|[c n] cnt]; [done|].
  pose proof (Hpos c n ltac:(left)).
  pose proof (counter_total_ge ((c, n) :: cnt) c n Hpos ltac:(left)). lia.
Qed.

(** Scaling by [k] does not change what [normalize] returns, provided the
    quotients of the scaled counts by the scaled total are the same floats. *)
Lemma normalize_scale (cnt : Counter) (k : Z) :
  cnt ≠ [] → (∀ c n, (c, n) ∈ cnt → 0 < n) →
  0 < k → k * counter_total cnt ≤ sys_maxsize →
  (∀ n, 0 < n ≤ counter_total cnt →
        (Z2F (k * n) / Z2F (k * counter_total cnt))%float
        = (Z2F n / Z2F (counter_total cnt))%float) →
  ∃ dist, normalize cnt = Ok dist ∧ normalize (scale_counts k cnt) = Ok dist.
Proof.
  intros Hne Hpos Hk Hbound Hdiv.
  pose proof (counter_total_pos cnt Hne Hpos) as Htot.
  eexists. split; [apply normalize_ok; [done|done|nia]|].
  rewrite normalize_ok.
  - f_equal. rewrite counter_total_scale. unfold scale_counts.
    rewrite <- list_fmap_compose. apply list_fmap_ext.
    intros _ [c n] Hin%list_elem_of_lookup_2. simpl. f_equal.
    pose proof (Hpos c n Hin). pose proof (counter_total_ge cnt c n Hpos Hin).
    apply Hdiv. lia.
  - unfold scale_counts. by destruct cnt.
  - intros c n Hin. unfold scale_counts in Hin.
    apply list_elem_of_fmap in Hin as ([c' n'] & [= -> ->] & Hin).
    pose proof (Hpos c' n' Hin). nia.
  - by rewrite counter_total_scale.
Qed.

(** C9, as the code has it. On a non-empty counter of positive counts,
    doubling every count leaves the result of [normalize] unchanged, as long
    as the doubled total is one a [str] could have produced; multiplying every
    count by another positive constant [k] leaves it unchanged whenever the
    scaled total stays below [2^53], where every count and total is an exact
    float. *)
Theorem normalize_scale_invariant (cnt : Counter) :
  cnt ≠ [] → (∀ c n, (c, n) ∈ cnt → 0 < n) →
  (2 * counter_total cnt ≤ sys_maxsize →
   ∃ dist, normalize cnt = Ok dist ∧ normalize (scale_counts 2 cnt) = Ok dist) ∧
  (∀ k, 0 < k → k * counter_total cnt < 2 ^ 53 →
   ∃ dist, normalize cnt = Ok dist ∧ normalize (scale_counts k cnt) = Ok dist).
Proof.
  intros Hne Hpos. pose proof (counter_total_pos cnt Hne Hpos) as Htot. split.
  - intros Hbound. apply normalize_scale; [done|done|lia|done|].
    intros n Hn. unfold sys_maxsize in Hbound. apply F_div_double; lia.
  - intros k Hk Hbound. apply normalize_scale; [done|done|done|unfold sys_maxsize; lia|].
    intros n Hn. apply F_div_ratio; nia.
Qed.

Lemma normalize_scale_invariant_witness :
  (∃ dist, normalize [("a"%char, 1); ("b"%char, 2)] = Ok dist ∧
           normalize (scale_counts 2 [("a"%char, 1); ("b"%char, 2)]) = Ok dist) ∧
  (∃ dist, normalize [("a"%char, 1); ("b"%char, 2)] = Ok dist ∧
           normalize (scale_counts 3 [("a"%char, 1); ("b"%char, 2)]) = Ok dist).
Proof.
  destruct (normalize_scale_invariant [("a"%char, 1); ("b"%char, 2)]) as [H2 Hk].
  - done.
  - intros c n Hin. repeat (apply elem_of_cons in Hin as [[= _ ->]|Hin]; [lia|]).
    by apply elem_of_nil in Hin.
  - split; [apply H2; vm_compute; discriminate|].
    apply (Hk 3); [lia | vm_compute; reflexivity].
Defined.

(** C9, as stated, fails. The total of [counter_big] is below [2^53] and
    converts to a float exactly; three times that total is above [2^53] and is
    rounded by the conversion. With every count multiplied by 3 the first
    probability changes from [5.551115123125813e-16] to
    [5.551115123125814e-16]. *)
Lemma normalize_scale_3_differs :
  normalize (scale_counts 3 counter_big) ≠ normalize counter_big.
Proof.
  intros H. apply (f_equal first_probability) in H.
  apply (f_equal (λ p, (p =? first_probability (normalize counter_big))%float)) in H.
  vm_compute in H. discriminate.
Qed.

(** * Further properties of the code *)

(** ** Runs of the generation loop *)

(** [range(n)] is empty for [n <= 0]: the loop body never runs. *)
Lemma generate_loop_nonpos lm order n g :
  n ≤ 0 → generate_loop lm order n g = Ok (GenState (py_str_mul sentinel order) [] g).
Proof.
  intros Hn. unfold generate_loop, py_range, seqZ.
  by replace (Z.to_nat n) with 0%nat by lia.
Qed.

(** The pair list each character of the output was sampled from: the one of
    the [order] characters before it, in the sentinels followed by the
    output. *)
Lemma generate_loop_trace lm order n g st :
  1 ≤ order → 0 ≤ n → generate_loop lm order n g = Ok st →
  ∀ i c, gs_out st !! i = Some c →
    ∃ dist, lm !! take (Z.to_nat order) (drop i (py_str_mul sentinel order ++ gs_out st))
            = Some dist ∧
            sample dist (draws g (used g + i)) = Some c.
Proof.
  intros Ho Hn. revert st. pattern n. apply natlike_ind; [| |done]; clear n Hn.
  - by intros st [= <-] i c.
  - intros n Hn IH st Hst. unfold Z.succ in Hst.
    rewrite generate_loop_succ in Hst by done.
    destruct (generate_loop lm order n g) as [prev|e] eqn:Hprev; [|done].
    simpl in Hst. specialize (IH prev eq_refl).
    pose proof (generate_loop_window lm order n g prev Ho Hn Hprev) as Hwin.
    destruct (generate_loop_counts lm order n g prev Hn Hprev) as [Hlen Hrng].
    apply generate_step_ok in Hst as (dist & c & Hlm & Hs & _ & Hout & _).
    set (pad := py_str_mul sentinel order) in *.
    assert (length pad = Z.to_nat order) as Hpad.
    { unfold pad, py_str_mul. by rewrite length_replicate. }
    set (out := gs_out prev) in *. set (W := drop (length out) (pad ++ out)) in *.
    assert (length W = Z.to_nat order) as HW.
    { unfold W. rewrite length_drop, length_app. lia. }
    rewrite Hout. rewrite Hwin in Hlm.
    intros i c' Hi. apply lookup_snoc_Some in Hi as [[Hlt Hi]|[-> <-]].
    + destruct (IH i c' Hi) as (d & Hd & Hsd). exists d. split; [|done].
      rewrite <- Hd. rewrite app_assoc.
      rewrite (drop_app_le (pad ++ out)) by (rewrite length_app; lia).
      rewrite take_app_le; [done|]. rewrite length_drop, length_app. lia.
    + exists dist. rewrite app_assoc.
      rewrite (drop_app_le (pad ++ out)) by (rewrite length_app; lia).
      fold W. rewrite take_app_le by lia. rewrite take_ge by lia.
      split; [done|]. rewrite Hrng in Hs. simpl in Hs.
      replace (length out) with (Z.to_nat n); [done|].
      unfold py_len in Hlen. fold out in Hlen. lia.
Qed.

(** A character returned by the sampling loop is a character of the list. *)
Lemma sample_elem_of (dist : Dist) (x : float) (c : ascii) :
  sample dist x = Some c → c ∈ dist.*1.
Proof.
  revert x. induction dist as [|[c' v] dist IH]; intros x; [done|]. simpl.
  destruct (_ <=? _)%float.
  - intros [= ->]. left.
  - intros Hs. right. by apply (IH _ Hs).
Qed.

(** The output only grows. *)
Lemma for_each_generate_step_out {A : Type} lm order (xs : list A) st st' :
  for_each (λ st _, generate_step lm order st) xs st = Ok st' →
  ∃ more, gs_out st' = gs_out st ++ more.
Proof.
  revert st. induction xs as [|x xs IH]; intros st; simpl.
  - intros [= <-]. exists []. by rewrite app_nil_r.
  - destruct (generate_step lm order st) as [st1|e] eqn:Hstep; [|done]. simpl.
    intros Hrest. apply IH in Hrest as (more & ->).
    apply generate_step_ok in Hstep as (dist & c & _ & _ & _ & -> & _).
    exists (c :: more). by rewrite <- app_assoc.
Qed.

(** X1. When [generate_text] returns, the text has exactly [nletters]
    characters, none when [nletters <= 0], and the random source has been
    read exactly once per character. This holds for every table and every
    order. *)
Theorem generate_text_length lm order nletters g s g' :
  generate_text lm order nletters g = Ok (s, g') →
  py_len s = Z.max nletters 0 ∧ g' = Rng (draws g) (used g + Z.to_nat nletters).
Proof.
  unfold generate_text. intros Hgen.
  destruct (generate_loop lm order nletters g) as [st|e] eqn:Hloop; [|done].
  injection Hgen as <- <-.
  destruct (Z.le_gt_cases 0 nletters) as [Hn|Hn].
  - destruct (generate_loop_counts lm order nletters g st Hn Hloop) as [Hlen Hrng].
    split; [lia|done].
  - rewrite generate_loop_nonpos in Hloop by lia. injection Hloop as <-.
    unfold py_len. simpl. split; [lia|]. destruct g; simpl. f_equal. lia.
Qed.

Lemma generate_text_length_witness :
  py_len (str "ab") = Z.max 2 0 ∧
  Rng (draws rng_half) 2 = Rng (draws rng_half) (used rng_half + Z.to_nat 2).
Proof.
  apply (generate_text_length lm_ab 1 2 rng_half). vm_compute. reflexivity.
Defined.

(** The output of the first [m] iterations of a run that returned. *)
Lemma generate_loop_take lm order m n g st :
  0 ≤ m ≤ n → generate_loop lm order n g = Ok st →
  ∃ st0, generate_loop lm order m g = Ok st0 ∧
         gs_out st0 = take (Z.to_nat m) (gs_out st).
Proof.
  intros Hmn. unfold generate_loop, py_range.
  replace n with (m + (n - m)) at 1 by lia.
  rewrite seqZ_app by lia. rewrite for_each_app.
  destruct (for_each _ (seqZ 0 m) _) as [st0|e] eqn:Hm; [|done]. simpl.
  intros Hrest. exists st0. split; [done|].
  destruct (generate_loop_counts lm order m g st0 ltac:(lia) Hm) as [Hlen _].
  apply for_each_generate_step_out in Hrest as (more & ->).
  rewrite take_app_length'; [done|]. unfold py_len in Hlen. lia.
Qed.

(** An exception of the first [m] iterations is the exception of the run. *)
Lemma generate_loop_raise lm order m n g e :
  0 ≤ m ≤ n → generate_loop lm order m g = Raise e →
  generate_loop lm order n g = Raise e.
Proof.
  intros Hmn. unfold generate_loop, py_range.
  replace (seqZ 0 n) with (seqZ 0 (m + (n - m))) by (f_equal; lia).
  rewrite seqZ_app by lia. rewrite for_each_app. by intros ->.
Qed.

(** X2. Asking for fewer characters gives a prefix: when a run for [n]
    characters returns [s], the run for [m <= n] characters from the same
    source returns the first [m] characters of [s], after [m] draws. *)
Theorem generate_text_prefix lm order m n g s g' :
  0 ≤ m ≤ n → generate_text lm order n g = Ok (s, g') →
  generate_text lm order m g
  = Ok (take (Z.to_nat m) s, Rng (draws g) (used g + Z.to_nat m)).
Proof.
  intros Hmn. unfold generate_text.
  destruct (generate_loop lm order n g) as [st|e] eqn:Hn; [|done]. simpl.
  intros [= <- <-].
  destruct (generate_loop_take lm order m n g st Hmn Hn) as (st0 & Hm & Hout).
  destruct (generate_loop_counts lm order m g st0 ltac:(lia) Hm) as [_ Hrng].
  rewrite Hm. simpl. by rewrite Hout, Hrng.
Qed.

Lemma generate_text_prefix_witness :
  generate_text lm_ab 1 1 rng_half
  = Ok (take (Z.to_nat 1) (str "ab"), Rng (draws rng_half) (used rng_half + Z.to_nat 1)).
Proof.
  apply (generate_text_prefix lm_ab 1 1 2 rng_half (str "ab") (Rng (draws rng_half) 2));
    [lia | vm_compute; reflexivity].
Defined.

(** X3. Every character of a returned text was sampled from the table: the
    character at position [i] is the result of the sampling loop on the pair
    list that the table binds to the [order] characters before it (in the
    sentinels followed by the text), with the draw number [i], and it is one
    of the characters of that list. *)
Theorem generate_text_follows_table lm order nletters g s g' :
  1 ≤ order → generate_text lm order nletters g = Ok (s, g') →
  ∀ i c, s !! i = Some c →
    ∃ dist,
      lm !! take (Z.to_nat order) (drop i (py_str_mul sentinel order ++ s)) = Some dist ∧
      sample dist (draws g (used g + i)) = Some c ∧
      c ∈ dist.*1.
Proof.
  intros Ho Hgen i c Hi. unfold generate_text in Hgen.
  destruct (generate_loop lm order nletters g) as [st|e] eqn:Hloop; [|done].
  injection Hgen as <- <-.
  destruct (Z.le_gt_cases 0 nletters) as [Hn|Hn].
  - destruct (generate_loop_trace lm order nletters g st Ho Hn Hloop i c Hi)
      as (dist & Hd & Hs). exists dist.
    split_and!; [done|done|]. by apply (sample_elem_of dist _ c Hs).
  - rewrite generate_loop_nonpos in Hloop by lia. by injection Hloop as <-.
Qed.

Lemma generate_text_follows_table_witness :
  generate_text lm_ab 1 2 rng_half = Ok (str "ab", Rng (draws rng_half) 2) ∧
  ∀ i c, str "ab" !! i = Some c →
    ∃ dist,
      lm_ab !! take (Z.to_nat 1) (drop i (py_str_mul sentinel 1 ++ str "ab")) = Some dist ∧
      sample dist (draws rng_half (used rng_half + i)) = Some c ∧
      c ∈ dist.*1.
Proof.
  assert (generate_text lm_ab 1 2 rng_half = Ok (str "ab", Rng (draws rng_half) 2)) as Hrun
    by (vm_compute; reflexivity).
  split; [exact Hrun|].
  exact (generate_text_follows_table lm_ab 1 2 rng_half (str "ab")
           (Rng (draws rng_half) 2) ltac:(lia) Hrun).
Defined.

(** X4. The two ways [generate_text] fails. When it raises, some number
    [k < nletters] of iterations went through, as the run for [k] characters
    shows, and the next one raised: [KeyError] when the last [order]
    characters (of the sentinels followed by the [k] characters) are not a
    key of the table, or [TypeError] when they are a key and the sampling
    loop ran out of pairs on the draw number [k]. No other exception is
    raised. *)
Theorem generate_text_failure lm order nletters g e :
  1 ≤ order → generate_text lm order nletters g = Raise e →
  ∃ k s,
    0 ≤ k < nletters ∧
    generate_text lm order k g = Ok (s, Rng (draws g) (used g + Z.to_nat k)) ∧
    let window := drop (length s) (py_str_mul sentinel order ++ s) in
    (e = KeyError ∧ lm !! window = None) ∨
    (e = TypeError ∧
     ∃ dist, lm !! window = Some dist ∧
             sample dist (draws g (used g + Z.to_nat k)) = None).
Proof.
  intros Ho. destruct (Z.le_gt_cases nletters 0) as [Hn|Hn].
  { unfold generate_text. by rewrite generate_loop_nonpos. }
  assert (1 ≤ nletters) as Hn1 by lia. clear Hn.
  revert e. pattern nletters. apply (Zlt_lower_bound_ind _ 1); [|done].
  clear nletters Hn1. intros n IH Hn e Hgen.
  unfold generate_text in Hgen. replace n with ((n - 1) + 1) in Hgen by lia.
  rewrite generate_loop_succ in Hgen by lia.
  destruct (generate_loop lm order (n - 1) g) as [prev|e0] eqn:Hprev.
  - simpl in Hgen.
    pose proof (generate_loop_window lm order (n - 1) g prev Ho ltac:(lia) Hprev) as Hwin.
    destruct (generate_loop_counts lm order (n - 1) g prev ltac:(lia) Hprev) as [Hlen Hrng].
    exists (n - 1), (gs_out prev). split; [lia|]. split.
    { unfold generate_text. rewrite Hprev. simpl. by rewrite Hrng. }
    cbv zeta. rewrite <- Hwin.
    unfold generate_step, generate_letter, random in Hgen. rewrite Hrng in Hgen.
    simpl in Hgen.
    destruct (lm !! py_slice_from (gs_history prev) (- order)) as [dist|]; simpl in Hgen.
    + destruct (sample dist _) as [c|] eqn:Hs; [done|]. injection Hgen as <-.
      right. split; [done|]. by exists dist.
    + injection Hgen as <-. by left.
  - simpl in Hgen. injection Hgen as <-.
    destruct (Z.eq_dec n 1) as [->|Hne].
    { by rewrite generate_loop_0 in Hprev. }
    destruct (IH (n - 1) ltac:(lia) e0) as (k & s & Hk & Hok & Hcase).
    { unfold generate_text. by rewrite Hprev. }
    exists k, s. split; [lia|]. done.
Qed.

Lemma generate_text_failure_witness :
  ∃ k s,
    0 ≤ k < 3 ∧
    generate_text lm_ab 1 k rng_half = Ok (s, Rng (draws rng_half) (used rng_half + Z.to_nat k)) ∧
    let window := drop (length s) (py_str_mul sentinel 1 ++ s) in
    (KeyError = KeyError ∧ lm_ab !! window = None) ∨
    (KeyError = TypeError ∧
     ∃ dist, lm_ab !! window = Some dist ∧
             sample dist (draws rng_half (used rng_half + Z.to_nat k)) = None).
Proof.
  apply (generate_text_failure lm_ab 1 3 rng_half KeyError);
    [lia | vm_compute; reflexivity].
Defined.

(** ** The transitions counted by [train_char_lm] *)

Lemma ref_padded_pad (contents : pystr) (o : nat) :
  ref_padded contents o = py_str_mul sentinel (Z.of_nat o) ++ contents.
Proof. unfold ref_padded, py_str_mul. by rewrite Nat2Z.id. Qed.

(** A transition is counted exactly when the history, followed by the
    character, occurs in the padded corpus. *)
Lemma ref_transitions_elem (contents : pystr) (o : nat) (h : pystr) (c : ascii) :
  (h, c) ∈ ref_transitions contents o ↔
  length h = o ∧ ∃ pre post, ref_padded contents o = pre ++ h ++ c :: post.
Proof.
  unfold ref_transitions. set (padded := ref_padded contents o).
  rewrite list_elem_of_omap. split.
  - intros (i & Hi%elem_of_seq & Ht). unfold ref_transition in Ht.
    destruct (padded !! i) as [c'|] eqn:Hc; [|done]. simpl in Ht.
    injection Ht as <- <-. pose proof (lookup_lt_Some _ _ _ Hc) as Hlt.
    split. { rewrite length_take, length_drop. lia. }
    exists (take (i - o) padded), (drop (S i) padded).
    rewrite app_assoc, take_take_drop.
    replace (i - o + o)%nat with i by lia. by rewrite take_drop_middle.
  - intros (Hlen & pre & post & Hp). exists (length pre + o)%nat. split.
    + apply elem_of_seq. rewrite Hp, !length_app. simpl. lia.
    + unfold ref_transition. rewrite Hp.
      rewrite lookup_app_r by lia. rewrite lookup_app_r by lia.
      replace (length pre + o - length pre - length h)%nat with 0%nat by lia. simpl.
      replace (length pre + o - o)%nat with (length pre) by lia.
      rewrite drop_app_length. by rewrite take_app_length' by done.
Qed.

Lemma ref_observed_elem (contents : pystr) (o : nat) (h : pystr) (c : ascii) :
  c ∈ ref_observed contents o h ↔ (h, c) ∈ ref_transitions contents o.
Proof.
  unfold ref_observed. rewrite list_elem_of_fmap. split.
  - intros ([h' c'] & -> & [Heq Hin]%list_elem_of_filter). simpl in *. by subst.
  - intros Hin. exists (h, c). split; [done|]. by apply list_elem_of_filter.
Qed.

(** The keys of the trained table and the characters of its pair lists. *)
Lemma train_char_lm_chars (contents : pystr) (o : nat) :
  py_len contents ≤ sys_maxsize →
  ∃ lm, train_char_lm contents (Z.of_nat o) = Ok lm ∧
    (∀ h, lm !! h = None ↔ ref_observed contents o h = []) ∧
    (∀ h dist, lm !! h = Some dist → dist.*1 = distinct (ref_observed contents o h)).
Proof.
  intros Hmax. destruct (train_char_lm_table contents o Hmax) as (lm & Hlm & Hh).
  exists lm. split; [done|]. split.
  - intros h. rewrite Hh. by case_decide.
  - intros h dist. rewrite Hh. case_decide; [done|]. intros [= <-].
    rewrite <- !list_fmap_compose. rewrite <- (list_fmap_id (distinct _)) at 2.
    by apply list_fmap_ext.
Qed.

(** X5. What the trained table knows. For [order >= 0] the table lists a
    character [c] in the pair list of a history [h] exactly when [h] has
    [order] characters and [h] followed by [c] occurs in the padded corpus. *)
Theorem train_char_lm_support (contents : pystr) (order : Z) :
  0 ≤ order → py_len contents ≤ sys_maxsize →
  ∃ lm, train_char_lm contents order = Ok lm ∧
    ∀ h c, (∃ dist, lm !! h = Some dist ∧ c ∈ dist.*1) ↔
           (py_len h = order ∧
            ∃ pre post, py_str_mul sentinel order ++ contents = pre ++ h ++ c :: post).
Proof.
  intros Ho Hmax.
  destruct (train_char_lm_chars contents (Z.to_nat order) Hmax) as (lm & Hlm & Hnone & Hsome).
  rewrite Z2Nat.id in Hlm by done. exists lm. split; [done|]. intros h c.
  pose proof (ref_transitions_elem contents (Z.to_nat order) h c) as Ht.
  rewrite ref_padded_pad, Z2Nat.id in Ht by done.
  rewrite <- ref_observed_elem in Ht.
  assert (py_len h = order ↔ length h = Z.to_nat order) as -> by (unfold py_len; lia).
  rewrite <- Ht. split.
  - intros (dist & Hd & Hc). rewrite (Hsome h dist Hd) in Hc.
    by apply (proj1 (distinct_elem_of _ _)) in Hc.
  - intros Hc. destruct (lm !! h) as [dist|] eqn:Hd.
    + exists dist. split; [done|]. rewrite (Hsome h dist Hd).
      by apply (proj2 (distinct_elem_of _ _)).
    + apply Hnone in Hd. rewrite Hd in Hc. by apply elem_of_nil in Hc.
Qed.

Lemma train_char_lm_support_witness :
  ∃ lm, train_char_lm corpus_x 1 = Ok lm ∧
    ∀ h c, (∃ dist, lm !! h = Some dist ∧ c ∈ dist.*1) ↔
           (py_len h = 1 ∧
            ∃ pre post, py_str_mul sentinel 1 ++ corpus_x = pre ++ h ++ c :: post).
Proof.
  apply (train_char_lm_support corpus_x 1); [lia | vm_compute; discriminate].
Defined.

(** X6. Every key of the trained table has exactly [order] characters, and
    no pair list names a character twice. *)
Theorem train_char_lm_keys (contents : pystr) (order : Z) :
  0 ≤ order → py_len contents ≤ sys_maxsize →
  ∃ lm, train_char_lm contents order = Ok lm ∧
    ∀ h dist, lm !! h = Some dist → py_len h = order ∧ NoDup dist.*1.
Proof.
  intros Ho Hmax.
  destruct (train_char_lm_chars contents (Z.to_nat order) Hmax) as (lm & Hlm & Hnone & Hsome).
  rewrite Z2Nat.id in Hlm by done. exists lm. split; [done|]. intros h dist Hd.
  split.
  - destruct (ref_observed contents (Z.to_nat order) h) as [|c cs] eqn:Hobs.
    { apply Hnone in Hobs. congruence. }
    assert (c ∈ ref_observed contents (Z.to_nat order) h) as Hc by (rewrite Hobs; left).
    apply ref_observed_elem, ref_transitions_elem in Hc as [Hlen _].
    unfold py_len. lia.
  - rewrite (Hsome h dist Hd). apply distinct_NoDup.
Qed.

Lemma train_char_lm_keys_witness :
  ∃ lm, train_char_lm corpus_x 1 = Ok lm ∧
    ∀ h dist, lm !! h = Some dist → py_len h = 1 ∧ NoDup dist.*1.
Proof.
  apply (train_char_lm_keys corpus_x 1); [lia | vm_compute; discriminate].
Defined.

(** The first transition counted is the one from the all-sentinel history to
    the first character of the corpus. *)
Lemma ref_transitions_head (c0 : ascii) (rest : pystr) (o : nat) :
  ∃ ts, ref_transitions (c0 :: rest) o = (replicate o sentinel, c0) :: ts.
Proof.
  unfold ref_transitions, ref_padded. rewrite length_app, length_replicate. simpl.
  replace (o + S (length rest) - o)%nat with (S (length rest)) by lia.
  simpl. unfold ref_transition at 1.
  rewrite lookup_app_r by (rewrite length_replicate; lia).
  rewrite length_replicate, Nat.sub_diag. simpl. rewrite drop_0.
  rewrite take_app_length' by (by rewrite length_replicate). eauto.
Qed.

(** X7. On a non-empty corpus the all-sentinel history, the one
    [generate_text] starts from, is a key of the trained table, and its pair
    list begins with the first character of the corpus. *)
Theorem train_char_lm_sentinel_history (c0 : ascii) (rest : pystr) (order : Z) :
  0 ≤ order → py_len (c0 :: rest) ≤ sys_maxsize →
  ∃ lm p tl, train_char_lm (c0 :: rest) order = Ok lm ∧
             lm !! py_str_mul sentinel order = Some ((c0, p) :: tl).
Proof.
  intros Ho Hmax.
  destruct (train_char_lm_table (c0 :: rest) (Z.to_nat order) Hmax) as (lm & Hlm & Hh).
  rewrite Z2Nat.id in Hlm by done. exists lm.
  specialize (Hh (py_str_mul sentinel order)). unfold py_str_mul in *.
  destruct (ref_transitions_head c0 rest (Z.to_nat order)) as (ts & Hts).
  unfold ref_observed in Hh. rewrite Hts in Hh.
  rewrite filter_cons_True in Hh by done. rewrite fmap_cons in Hh. simpl in Hh.
  eauto.
Qed.

Lemma train_char_lm_sentinel_history_witness :
  ∃ lm p tl, train_char_lm ("a"%char :: str "b") 1 = Ok lm ∧
             lm !! py_str_mul sentinel 1 = Some (("a"%char, p) :: tl).
Proof.
  apply (train_char_lm_sentinel_history "a"%char (str "b") 1);
    [lia | vm_compute; discriminate].
Defined.

(** At order 0 every transition starts from the empty history. *)
Lemma omap_lookup_seq {A B : Type} (f : A → B) (pre l : list A) :
  omap (λ i, c ← (pre ++ l) !! i; Some (f c)) (seq (length pre) (length l)) = f <$> l.
Proof.
  revert pre. induction l as [|x l IH]; intros pre; [done|]. csimpl.
  rewrite list_lookup_middle by done. simpl. f_equal.
  specialize (IH (pre ++ [x])). rewrite <- app_assoc, length_app in IH. simpl in IH.
  by rewrite Nat.add_1_r in IH.
Qed.

Lemma ref_transitions_0 (contents : pystr) :
  ref_transitions contents 0 = (λ c, ([], c)) <$> contents.
Proof.
  unfold ref_transitions, ref_padded. simpl. rewrite Nat.sub_0_r.
  apply (omap_lookup_seq (λ c, ([], c)) [] contents).
Qed.

(** X8. At order 0 the table is the unigram model: its only key is the empty
    history, bound to the distinct characters of the corpus in order of first
    occurrence, each with its number of occurrences divided by the length of
    the corpus. *)
Theorem train_char_lm_order_0 (contents : pystr) :
  contents ≠ [] → py_len contents ≤ sys_maxsize →
  train_char_lm contents 0
  = Ok {[ [] := (λ c, (c, (Z2F (Z.of_nat (length (filter (λ c', c' = c) contents)))
                          / Z2F (py_len contents))%float))
                <$> distinct contents ]}.
Proof.
  intros Hne Hmax. destruct (train_char_lm_table contents 0 Hmax) as (lm & Hlm & Hh).
  change (Z.of_nat 0) with 0 in Hlm. rewrite Hlm. f_equal. apply map_eq. intros h. rewrite Hh.
  assert (ref_observed contents 0 h = if decide (h = []) then contents else []) as Hobs.
  { unfold ref_observed. rewrite ref_transitions_0. clear.
    destruct (decide (h = [])) as [->|Hnil].
    - induction contents as [|c cs IH]; [done|]. rewrite fmap_cons.
      rewrite filter_cons_True by done. rewrite fmap_cons. simpl. by f_equal.
    - induction contents as [|c cs IH]; [done|]. rewrite fmap_cons.
      by rewrite filter_cons_False by (simpl; congruence). }
  unfold ref_total, ref_count. rewrite Hobs.
  destruct (decide (h = [])) as [->|Hnil].
  - rewrite lookup_singleton_eq, decide_False by done. f_equal.
    by rewrite <- list_fmap_compose.
  - rewrite lookup_singleton_ne by done. by rewrite decide_True.
Qed.

Lemma train_char_lm_order_0_witness :
  train_char_lm (str "ab") 0
  = Ok {[ [] := (λ c, (c, (Z2F (Z.of_nat (length (filter (λ c', c' = c) (str "ab"))))
                          / Z2F (py_len (str "ab")))%float))
                <$> distinct (str "ab") ]}.
Proof.
  apply (train_char_lm_order_0 (str "ab")); [discriminate | vm_compute; discriminate].
Defined.

(** X9. The trained table has at most as many keys as the corpus has
    characters, and it is empty exactly when the corpus is. *)
Theorem train_char_lm_size (contents : pystr) (order : Z) :
  0 ≤ order → py_len contents ≤ sys_maxsize →
  ∃ lm, train_char_lm contents order = Ok lm ∧
        Z.of_nat (size lm) ≤ py_len contents ∧
        (lm = ∅ ↔ contents = []).
Proof.
  intros Ho Hmax.
  destruct (train_char_lm_chars contents (Z.to_nat order) Hmax) as (lm & Hlm & Hnone & Hsome).
  rewrite Z2Nat.id in Hlm by done. exists lm. split; [done|].
  assert (length (ref_transitions contents (Z.to_nat order)) ≤ length contents)%nat as Hlen.
  { unfold ref_transitions, ref_padded. etrans; [apply length_omap_le|].
    rewrite length_seq, length_app, length_replicate. lia. }
  assert (∀ h, is_Some (lm !! h) → h ∈ (ref_transitions contents (Z.to_nat order)).*1) as Hkeys.
  { intros h [dist Hd].
    destruct (ref_observed contents (Z.to_nat order) h) as [|c cs] eqn:Hobs.
    { apply Hnone in Hobs. congruence. }
    assert (c ∈ ref_observed contents (Z.to_nat order) h) as Hc by (rewrite Hobs; left).
    apply ref_observed_elem in Hc. apply list_elem_of_fmap. by exists (h, c). }
  split.
  - unfold py_len. apply inj_le. etrans; [|apply Hlen].
    rewrite <- (length_fmap fst (ref_transitions _ _)).
    rewrite <- length_map_to_list, <- (length_fmap fst (map_to_list lm)).
    apply submseteq_length, NoDup_submseteq; [apply NoDup_fst_map_to_list|].
    intros h ([h' dist] & -> & Hin%elem_of_map_to_list)%list_elem_of_fmap.
    apply Hkeys. by exists dist.
  - split.
    + intros ->. destruct contents as [|c0 rest]; [done|].
      destruct (ref_transitions_head c0 rest (Z.to_nat order)) as (ts & Hts).
      specialize (Hnone (replicate (Z.to_nat order) sentinel)).
      rewrite lookup_empty in Hnone. unfold ref_observed in Hnone.
      rewrite Hts, filter_cons_True in Hnone by done.
      by pose proof (proj1 Hnone eq_refl).
    + intros ->. apply map_eq. intros h. rewrite lookup_empty.
      destruct (lm !! h) as [dist|] eqn:Hd; [|done].
      specialize (Hkeys h ltac:(eauto)).
      destruct (ref_transitions [] (Z.to_nat order)); [|simpl in Hlen; lia].
      by apply elem_of_nil in Hkeys.
Qed.

Lemma train_char_lm_size_witness :
  ∃ lm, train_char_lm corpus_x 1 = Ok lm ∧
        Z.of_nat (size lm) ≤ py_len corpus_x ∧
        (lm = ∅ ↔ corpus_x = []).
Proof.
  apply (train_char_lm_size corpus_x 1); [lia | vm_compute; discriminate].
Defined.

(** ** Training, then generating *)

(** The first iteration of the loop of [generate_text] on a window the table
    does not have. *)
Lemma generate_loop_first_miss lm order n g :
  1 ≤ n → lm !! py_slice_from (py_str_mul sentinel order) (- order) = None →
  generate_loop lm order n g = Raise KeyError.
Proof.
  intros Hn Hmiss. unfold generate_loop, py_range.
  rewrite seqZ_cons by lia. simpl.
  unfold generate_step, generate_letter. simpl. by rewrite Hmiss.
Qed.

(** X10. Text generated from a trained table is made of observed
    transitions only: every run of [order + 1] consecutive characters of the
    sentinels followed by the generated text also occurs in the sentinels
    followed by the corpus. *)
Theorem train_and_generate_ngrams contents order nletters g s g' :
  1 ≤ order → py_len contents ≤ sys_maxsize →
  train_and_generate contents order nletters g = Ok (s, g') →
  ∀ pre w post,
    py_str_mul sentinel order ++ s = pre ++ w ++ post → py_len w = order + 1 →
    ∃ pre' post', py_str_mul sentinel order ++ contents = pre' ++ w ++ post'.
Proof.
  intros Ho Hmax Hrun pre w post Hsplit Hw.
  destruct (train_char_lm_chars contents (Z.to_nat order) Hmax) as (lm & Hlm & _ & Hsome).
  rewrite Z2Nat.id in Hlm by lia.
  unfold train_and_generate in Hrun. rewrite Hlm in Hrun. simpl in Hrun.
  unfold generate_text in Hrun.
  destruct (generate_loop lm order nletters g) as [st|e] eqn:Hloop; [|done].
  injection Hrun as <- <-.
  destruct (Z.le_gt_cases 0 nletters) as [Hn|Hn]; cycle 1.
  { rewrite generate_loop_nonpos in Hloop by lia. injection Hloop as <-. simpl in *.
    apply (f_equal length) in Hsplit. rewrite app_nil_r, !length_app in Hsplit.
    unfold py_str_mul, py_len in *. rewrite length_replicate in Hsplit. lia. }
  pose proof (generate_loop_trace lm order nletters g st Ho Hn Hloop) as Hsteps.
  set (pad := py_str_mul sentinel order) in *.
  assert (length pad = Z.to_nat order) as Hpad.
  { unfold pad, py_str_mul. by rewrite length_replicate. }
  set (h := take (Z.to_nat order) w).
  assert (length w = S (Z.to_nat order)) as Hw' by (unfold py_len in Hw; lia).
  destruct (lookup_lt_is_Some_2 w (Z.to_nat order) ltac:(lia)) as [c Hc].
  assert (w = h ++ [c]) as Hwhc.
  { rewrite <- (take_drop (Z.to_nat order) w) at 1. fold h. f_equal.
    rewrite (drop_S _ c _ Hc). rewrite drop_ge by lia. done. }
  assert (length h = Z.to_nat order) as Hh by (unfold h; rewrite length_take; lia).
  assert (gs_out st !! length pre = Some c) as Hi.
  { assert ((pad ++ gs_out st) !! (Z.to_nat order + length pre)%nat = Some c) as Hl.
    { rewrite Hsplit, Hwhc, <- !app_assoc.
      rewrite lookup_app_r by lia. rewrite lookup_app_r by lia.
      replace (Z.to_nat order + length pre - length pre - length h)%nat with 0%nat by lia.
      done. }
    rewrite lookup_app_r in Hl by lia.
    by replace (Z.to_nat order + length pre - length pad)%nat with (length pre) in Hl by lia. }
  destruct (Hsteps _ _ Hi) as (dist & Hd & Hs).
  rewrite Hsplit, Hwhc, <- !app_assoc, drop_app_length in Hd.
  rewrite take_app_length' in Hd by done.
  apply sample_elem_of in Hs. rewrite (Hsome h dist Hd) in Hs.
  apply (proj1 (distinct_elem_of _ _)), ref_observed_elem, ref_transitions_elem in Hs
    as (_ & pre' & post' & Hp).
  rewrite ref_padded_pad, Z2Nat.id in Hp by lia. fold pad in Hp.
  exists pre', post'. rewrite Hp, Hwhc, <- app_assoc. done.
Qed.

Lemma train_and_generate_ngrams_witness :
  train_and_generate (str "ab") 1 2 rng_half = Ok (str "ab", Rng (draws rng_half) 2) ∧
  ∀ pre w post,
    py_str_mul sentinel 1 ++ str "ab" = pre ++ w ++ post → py_len w = 1 + 1 →
    ∃ pre' post', py_str_mul sentinel 1 ++ str "ab" = pre' ++ w ++ post'.
Proof.
  assert (train_and_generate (str "ab") 1 2 rng_half
          = Ok (str "ab", Rng (draws rng_half) 2)) as Hrun by (vm_compute; reflexivity).
  split; [exact Hrun|].
  apply (train_and_generate_ngrams (str "ab") 1 2 rng_half (str "ab")
           (Rng (draws rng_half) 2));
    [lia | vm_compute; discriminate | exact Hrun].
Defined.

(** X11. A table trained at one order and used at another: the first
    lookup of [generate_text] misses, because its window has [order']
    characters and every key has [order], so the run raises [KeyError]. *)
Theorem generate_text_order_mismatch contents order order' nletters g :
  0 ≤ order → 0 ≤ order' → order' ≠ order → 1 ≤ nletters →
  py_len contents ≤ sys_maxsize →
  ∃ lm, train_char_lm contents order = Ok lm ∧
        generate_text lm order' nletters g = Raise KeyError.
Proof.
  intros Ho Ho' Hne Hn Hmax.
  destruct (train_char_lm_chars contents (Z.to_nat order) Hmax) as (lm & Hlm & Hnone & _).
  rewrite Z2Nat.id in Hlm by done.
  exists lm. split; [done|]. unfold generate_text.
  rewrite generate_loop_first_miss; [done|done|].
  set (w := py_slice_from _ _).
  assert (py_len w = order') as Hw.
  { unfold w. destruct (Z.eq_dec order' 0) as [->|Hpos]; [done|].
    rewrite py_slice_from_last_len, py_len_str_mul by lia. lia. }
  destruct (lm !! w) as [dist|] eqn:Hd; [|done]. exfalso.
  destruct (ref_observed contents (Z.to_nat order) w) as [|c cs] eqn:Hobs.
  { apply Hnone in Hobs. congruence. }
  assert (c ∈ ref_observed contents (Z.to_nat order) w) as Hc by (rewrite Hobs; left).
  apply ref_observed_elem, ref_transitions_elem in Hc as [Hlen _].
  unfold py_len in Hw. lia.
Qed.

Lemma generate_text_order_mismatch_witness :
  ∃ lm, train_char_lm corpus_x 1 = Ok lm ∧
        generate_text lm 2 5 rng_half = Raise KeyError.
Proof.
  apply (generate_text_order_mismatch corpus_x 1 2 5 rng_half);
    [lia | lia | lia | lia | vm_compute; discriminate].
Defined.

(** X12. At order 0, training and then generating two or more characters
    never returns. [history[-0:]] is the whole buffer, so the second lookup
    asks for the one-character history of the first output, which is not a
    key ([KeyError]); or the first sampling step already ran out of pairs
    ([TypeError]), or the corpus was empty ([KeyError]). *)
Theorem train_and_generate_order_0 contents nletters g :
  2 ≤ nletters → py_len contents ≤ sys_maxsize →
  train_and_generate contents 0 nletters g = Raise KeyError ∨
  train_and_generate contents 0 nletters g = Raise TypeError.
Proof.
  intros Hn Hmax.
  destruct (train_char_lm_chars contents 0 Hmax) as (lm & Hlm & Hnone & _).
  change (Z.of_nat 0) with 0 in Hlm.
  unfold train_and_generate. rewrite Hlm. simpl.
  unfold generate_text, generate_loop, py_range.
  rewrite seqZ_cons by lia. rewrite seqZ_cons by lia. simpl.
  destruct (generate_step lm 0 _) as [st1|e] eqn:Hstep1; simpl.
  - apply generate_step_ok in Hstep1 as (dist & c & _ & _ & Hh & _). simpl in Hh.
    unfold generate_step, generate_letter. rewrite Hh.
    change (py_slice_from [c] (- 0)) with [c].
    replace (lm !! [c]) with (@None Dist); [by left|]. symmetry.
    apply Hnone. unfold ref_observed. rewrite ref_transitions_0. clear.
    induction contents as [|c' cs IH]; [done|]. rewrite fmap_cons.
    by rewrite filter_cons_False by (simpl; congruence).
  - unfold generate_step, generate_letter in Hstep1. simpl in Hstep1.
    destruct (lm !! _) as [dist|]; simpl in Hstep1; [|left; congruence].
    destruct (sample dist _); [done|]. right. congruence.
Qed.

Lemma train_and_generate_order_0_witness :
  train_and_generate (str "ab") 0 2 rng_half = Raise KeyError ∨
  train_and_generate (str "ab") 0 2 rng_half = Raise TypeError.
Proof.
  apply (train_and_generate_order_0 (str "ab") 2 rng_half);
    [lia | vm_compute; discriminate].
Defined.

(** X13. The empty corpus. For [order >= 0] its table is empty, so asking for
    at least one character raises [KeyError] and asking for none returns the
    empty text without a draw; for a negative order the training itself
    raises [IndexError]. *)
Theorem train_and_generate_empty_corpus order nletters g :
  (0 ≤ order → 1 ≤ nletters → train_and_generate [] order nletters g = Raise KeyError) ∧
  (0 ≤ order → nletters ≤ 0 → train_and_generate [] order nletters g = Ok ([], g)) ∧
  (order < 0 → train_and_generate [] order nletters g = Raise IndexError).
Proof.
  assert (0 ≤ order → train_char_lm [] order = Ok ∅) as Hempty.
  { intros Ho. destruct (train_char_lm_chars [] (Z.to_nat order)) as (lm & Hlm & Hnone & _).
    { vm_compute. discriminate. }
    rewrite Z2Nat.id in Hlm by done. rewrite Hlm. f_equal. apply map_eq. intros h.
    rewrite lookup_empty. apply Hnone.
    pose proof (ref_total_le [] (Z.to_nat order) h) as Hle. unfold ref_total in Hle.
    destruct (ref_observed [] (Z.to_nat order) h); [done|simpl in Hle; lia]. }
  unfold train_and_generate. split_and!.
  - intros Ho Hn. rewrite Hempty by done. simpl. unfold generate_text.
    by rewrite generate_loop_first_miss.
  - intros Ho Hn. rewrite Hempty by done. simpl. unfold generate_text.
    by rewrite generate_loop_nonpos.
  - intros Ho. unfold train_char_lm, py_str_mul, py_range.
    replace (Z.to_nat order) with 0%nat by lia. simpl.
    change (py_len []) with 0. rewrite seqZ_cons by lia. simpl.
    unfold py_index. change (py_len []) with 0.
    destruct (Z.ltb_spec (0 + order) 0); [|lia]. simpl.
    destruct (Z.ltb_spec (0 + order + 0) 0); [done|lia].
Qed.

Lemma train_and_generate_empty_corpus_witness :
  train_and_generate [] 1 3 rng_half = Raise KeyError ∧
  train_and_generate [] 1 0 rng_half = Ok ([], rng_half) ∧
  train_and_generate [] (-1) 3 rng_half = Raise IndexError.
Proof.
  split; [|split].
  - apply (proj1 (train_and_generate_empty_corpus 1 3 rng_half)); lia.
  - apply (proj1 (proj2 (train_and_generate_empty_corpus 1 0 rng_half))); lia.
  - apply (proj2 (proj2 (train_and_generate_empty_corpus (-1) 3 rng_half))); lia.
Defined.

(** ** A negative order *)

(** The table of any counted transitions can be normalized, as long as there
    are no more of them than a [str] has characters. *)
Lemma dict_comprehension_counted (ts : list (pystr * ascii)) :
  Z.of_nat (length ts) ≤ sys_maxsize →
  ∃ lm, dict_comprehension normalize (foldl (λ lm t, lm_incr t.1 t.2 lm) ∅ ts) = Ok lm.
Proof.
  intros Hmax.
  set (g := λ cnt : Counter,
         (λ '(c, n), (c, (Z2F n / Z2F (counter_total cnt))%float)) <$> cnt).
  rewrite (dict_comprehension_ok normalize g); [eauto|].
  intros h cnt Hh. rewrite lm_fold_lookup in Hh. case_decide as Hnil; [done|].
  injection Hh as <-.
  destruct (counter_of_chars_pairs (filter (λ t, t.1 = h) ts).*2) as (Hcnt & Hpos & Htot).
  apply normalize_ok; [|done|].
  - rewrite Hcnt. by destruct ((filter (λ t, t.1 = h) ts).*2).
  - rewrite Htot, length_fmap. pose proof (length_filter (λ t, t.1 = h) ts). lia.
Qed.

(** X14. A negative order is not rejected. There is no padding, the loop
    runs [len(data) - order] times and reads [data[i + order]]: the first
    read is out of range, and [train_char_lm] raises [IndexError], exactly
    when the corpus has fewer than [- order] characters; otherwise every read
    is in range and a table is returned. *)
Theorem train_char_lm_negative_order (contents : pystr) (order : Z) :
  order < 0 → py_len contents - order ≤ sys_maxsize →
  (py_len contents < - order → train_char_lm contents order = Raise IndexError) ∧
  (- order ≤ py_len contents → ∃ lm, train_char_lm contents order = Ok lm).
Proof.
  intros Ho Hmax. unfold train_char_lm, py_str_mul.
  replace (Z.to_nat order) with 0%nat by lia. cbv zeta. rewrite app_nil_l.
  assert (0 ≤ py_len contents) as Hlen0 by (unfold py_len; lia).
  split.
  - intros Hshort. unfold py_range. rewrite seqZ_cons by lia. simpl.
    unfold py_index. destruct (Z.ltb_spec (0 + order) 0); [|lia].
    by destruct (Z.ltb_spec (0 + order + py_len contents) 0); [|lia].
  - intros Hlong. unfold py_range, seqZ.
    erewrite (for_each_foldl _ (λ lm t, lm_incr t.1 t.2 lm) _
                (λ k, match py_index contents (Z.of_nat k + 0 + order) with
                      | Ok c => Some (py_slice contents (Z.of_nat k + 0)
                                        (Z.of_nat k + 0 + order), c)
                      | Raise _ => None
                      end)).
    + simpl. apply dict_comprehension_counted.
      etrans; [apply inj_le, length_omap_le|]. rewrite length_seq. lia.
    + intros k lm Hk%elem_of_seq. simpl in Hk.
      assert (∃ c, py_index contents (Z.of_nat k + 0 + order) = Ok c) as [c Hc].
      { unfold py_index, py_len in *.
        destruct (Z.ltb_spec (Z.of_nat k + 0 + order) 0).
        - destruct (Z.ltb_spec (Z.of_nat k + 0 + order + Z.of_nat (length contents)) 0);
            [lia|].
          destruct (lookup_lt_is_Some_2 contents
                      (Z.to_nat (Z.of_nat k + 0 + order + Z.of_nat (length contents))))
            as [c ->]; [lia|eauto].
        - destruct (Z.ltb_spec (Z.of_nat k + 0 + order) 0); [lia|].
          destruct (lookup_lt_is_Some_2 contents (Z.to_nat (Z.of_nat k + 0 + order)))
            as [c ->]; [lia|eauto]. }
      rewrite Hc. eexists. split; [done|]. by simpl.
Qed.

Lemma train_char_lm_negative_order_witness :
  train_char_lm (str "ab") (-3) = Raise IndexError ∧
  ∃ lm, train_char_lm (str "ab") (-1) = Ok lm.
Proof.
  split.
  - apply (proj1 (train_char_lm_negative_order (str "ab") (-3) ltac:(lia)
                    ltac:(vm_compute; discriminate))).
    vm_compute. reflexivity.
  - apply (proj2 (train_char_lm_negative_order (str "ab") (-1) ltac:(lia)
                    ltac:(vm_compute; discriminate))).
    vm_compute. discriminate.
Defined.

(** ** Subtracting [1.0] from a draw *)

Lemma shr_fexp_nonneg m e l :
  0 ≤ m → 0 ≤ shr_m (shr_fexp prec emax m e l).1.
Proof.
  intros Hm. unfold shr_fexp, shr.
  destruct (fexp prec emax (Zdigits2 m + e) - e) as [|p|p]; simpl;
    rewrite ?shr_m_record_of_loc; try done.
  rewrite iter_pos_nat, shr_m_iter by (by rewrite shr_m_record_of_loc).
  rewrite shr_m_record_of_loc. apply Z.div_pos; lia.
Qed.

(** Rounding keeps the sign: a negative value is rounded to a negative
    float, to negative zero or to negative infinity. *)
Lemma binary_round_aux_sign m e l :
  0 ≤ m → SFleb (binary_round_aux prec emax true m e l) (S754_zero false) = true.
Proof.
  intros Hm. unfold binary_round_aux.
  pose proof (shr_fexp_nonneg m e l Hm) as H1.
  destruct (shr_fexp prec emax m e l) as [mrs' e']. simpl in H1.
  pose proof (round_nearest_even_range (shr_m mrs') (loc_of_shr_record mrs')) as Hr.
  pose proof (shr_fexp_nonneg (round_nearest_even (shr_m mrs') (loc_of_shr_record mrs'))
                e' loc_Exact ltac:(lia)) as H2.
  destruct (shr_fexp prec emax _ e' loc_Exact) as [mrs'' e'']. simpl in H2.
  destruct (shr_m mrs'') as [|p|p]; [done| |lia].
  by destruct (e'' <=? emax - prec).
Qed.

(** The mantissa of a float has at most 53 bits. *)
Lemma valid_binary_mantissa s m e :
  valid_binary (S754_finite s m e) = true → Z.pos m < 2 ^ 53.
Proof.
  unfold SpecFloat.valid_binary, bounded, canonical_mantissa, fexp.
  intros [Hc _]%andb_prop. apply Z.eqb_eq in Hc. rewrite digits2_pos_size in Hc.
  unfold prec, SpecFloat.emin, emax in Hc.
  assert (Z.pos m < 2 ^ Z.pos (Pos.size m)) as Hlt.
  { rewrite <- (Pos2Z.inj_pow 2). apply Pos2Z.pos_lt_pos, Pos.size_gt. }
  assert (2 ^ Z.pos (Pos.size m) ≤ 2 ^ 53); [|lia].
  apply Z.pow_le_mono_r; lia.
Qed.

(** Two positive floats compared: first the exponents, then the mantissas. *)
Lemma SFltb_finite_pos m e p q :
  SFltb (S754_finite false m e) (S754_finite false p q) = true →
  e < q ∨ (e = q ∧ Z.pos m < Z.pos p).
Proof.
  unfold SFltb, SFcompare.
  destruct (Z.compare_spec e q) as [He|He|He].
  - change (Pos.compare_cont Eq m p) with (m ?= p)%positive.
    destruct (Pos.compare_spec m p) as [Hm|Hm|Hm]; intros Hlt; try discriminate Hlt.
    right. split; [done|]. lia.
  - intros _. by left.
  - intros Hlt. discriminate Hlt.
Qed.

(** A draw below [1.0], less [1.0], is [<= 0]. *)
Lemma float_sub_one_nonpos (x : float) :
  (x <? 1)%float = true → (x - 1 <=? 0)%float = true.
Proof.
  rewrite FloatAxioms.ltb_spec, FloatAxioms.leb_spec, FloatAxioms.sub_spec.
  pose proof (Prim2SF_valid x) as Hv.
  change (Prim2SF 1) with (S754_finite false 4503599627370496 (-52)).
  change (Prim2SF 0) with (S754_zero false).
  destruct (Prim2SF x) as [s|s| |s m e]; try done.
  - by destruct s.
  - intros Hlt. apply valid_binary_mantissa in Hv. unfold SF64sub, SFsub.
    set (ez := Z.min e (-52)).
    rewrite !shl_align_spec by lia. cbn [fst].
    assert (0 < 2 ^ (e - ez)) as Hpa by (apply Z.pow_pos_nonneg; lia).
    assert (0 < 2 ^ (-52 - ez)) as Hpb by (apply Z.pow_pos_nonneg; lia).
    rewrite !Z2Pos.id by lia.
    assert (cond_Zopp s (Z.pos m * 2 ^ (e - ez))
            - cond_Zopp false (4503599627370496 * 2 ^ (-52 - ez)) < 0) as Hneg.
    { destruct s; cbn [cond_Zopp]; [lia|].
      apply SFltb_finite_pos in Hlt as [He|[He Hm]].
      - replace (e - ez) with 0 by lia.
        assert (2 ^ 1 ≤ 2 ^ (-52 - ez)) by (apply Z.pow_le_mono_r; lia). lia.
      - replace (e - ez) with 0 by lia. replace (-52 - ez) with 0 by lia. lia. }
    destruct (cond_Zopp s _ - _) as [|p|p]; [lia|lia|].
    unfold binary_normalize, binary_round.
    destruct (shl_align _ _ _) as [mz ez']. by apply binary_round_aux_sign.
Qed.

(** ** A history with one successor *)

(** A count divided by itself is exactly [1.0]. *)
Lemma F_div_self n : 0 < n < 2 ^ 63 → (Z2F n / Z2F n)%float = 1%float.
Proof.
  intros Hn. destruct (F_div_rounding n n) as (m & e & Hp & Hm & Hr); [lia..|].
  destruct (round_int_error n Hn) as [Hpos _].
  apply (is_rounding_ratio _ _ 1 1) in Hr; [|lia..].
  assert (is_rounding 1 1 (2 ^ 52) (- 52)) as H1.
  { exists 52, (2 ^ 52). split; [lia|]. split; [lia|]. split; [|reflexivity].
    split; [simpl; lia|simpl; lia]. }
  destruct (is_rounding_unique 1 1 m e (2 ^ 52) (- 52)) as [-> ->]; [lia|lia|done|done|].
  apply Prim2SF_inj. rewrite Hp. reflexivity.
Qed.

Lemma filter_all {A : Type} (P : A → Prop) `{∀ x, Decision (P x)} (l : list A) :
  (∀ x, x ∈ l → P x) → filter P l = l.
Proof.
  induction l as [|x l IH]; intros Hall; [done|].
  rewrite filter_cons_True by (apply Hall; left). f_equal.
  apply IH. intros y Hy. apply Hall. by right.
Qed.

Lemma filter_none {A : Type} (P : A → Prop) `{∀ x, Decision (P x)} (l : list A) :
  (∀ x, x ∈ l → ¬ P x) → filter P l = [].
Proof.
  induction l as [|x l IH]; intros Hall; [done|].
  rewrite filter_cons_False by (apply Hall; left).
  apply IH. intros y Hy. apply Hall. by right.
Qed.

Lemma distinct_const {A : Type} `{EqDecision A} (l : list A) (c : A) :
  c ∈ l → (∀ x, x ∈ l → x = c) → distinct l = [c].
Proof.
  destruct l as [|x l]; [by intros ?%elem_of_nil|]. intros _ Hall. simpl.
  rewrite (Hall x) by left. f_equal. apply filter_none.
  intros y Hy. apply (proj1 (distinct_elem_of l y)) in Hy.
  intros Hne. apply Hne, Hall. by right.
Qed.

(** When every character observed after [h] is [c], the table binds [h] to
    the single pair of [c] and [1.0]. *)
Lemma train_char_lm_single (contents : pystr) (o : nat) (h : pystr) (c : ascii) :
  py_len contents ≤ sys_maxsize →
  c ∈ ref_observed contents o h →
  (∀ c', c' ∈ ref_observed contents o h → c' = c) →
  ∃ lm, train_char_lm contents (Z.of_nat o) = Ok lm ∧ lm !! h = Some [(c, 1%float)].
Proof.
  intros Hmax Hc Hall.
  destruct (train_char_lm_table contents o Hmax) as (lm & Hlm & Hh).
  exists lm. split; [done|]. rewrite Hh.
  rewrite decide_False by (intros Hnil; rewrite Hnil in Hc; by apply elem_of_nil in Hc).
  rewrite (distinct_const _ c Hc Hall). simpl. do 3 f_equal.
  unfold ref_count. rewrite filter_all by done. fold (ref_total contents o h).
  apply F_div_self. pose proof (ref_total_le contents o h) as Hle.
  unfold py_len, sys_maxsize in Hmax. split; [|lia].
  unfold ref_total. destruct (ref_observed contents o h); [|simpl; lia].
  by apply elem_of_nil in Hc.
Qed.

(** X15. A history that is always followed by the same character [c] in the
    padded corpus is bound to the single pair of [c] and exactly [1.0],
    however often it was observed. *)
Theorem train_char_lm_single_successor (contents : pystr) (order : Z) (h : pystr) (c : ascii) :
  0 ≤ order → py_len contents ≤ sys_maxsize →
  py_len h = order →
  (∃ pre post, py_str_mul sentinel order ++ contents = pre ++ h ++ c :: post) →
  (∀ c' pre post, py_str_mul sentinel order ++ contents = pre ++ h ++ c' :: post → c' = c) →
  ∃ lm, train_char_lm contents order = Ok lm ∧ lm !! h = Some [(c, 1%float)].
Proof.
  intros Ho Hmax Hlen Hocc Hall.
  rewrite <- (Z2Nat.id order) by done.
  assert (∀ c', c' ∈ ref_observed contents (Z.to_nat order) h ↔
               ∃ pre post, py_str_mul sentinel order ++ contents = pre ++ h ++ c' :: post)
    as Hobs.
  { intros c'. rewrite ref_observed_elem, ref_transitions_elem, ref_padded_pad.
    rewrite Z2Nat.id by done. unfold py_len in Hlen. split; [by intros [_ ?]|].
    intros ?. split; [lia|done]. }
  apply train_char_lm_single; [done| |].
  - by apply Hobs.
  - intros c' (pre & post & Hp)%Hobs. by apply (Hall c' pre post).
Qed.

Lemma train_char_lm_single_successor_witness :
  ∃ lm, train_char_lm (str "abac") 1 = Ok lm ∧ lm !! str "b" = Some [("a"%char, 1%float)].
Proof.
  apply (train_char_lm_single_successor (str "abac") 1 (str "b") "a"%char);
    [lia | vm_compute; discriminate | reflexivity | by exists (str "~a"), (str "c") |].
  intros c' pre post Hp.
  destruct pre as [|p0 [|p1 [|p2 [|p3 [|p4 pre]]]]]; simplify_eq/=; try done.
  - destruct pre; simplify_eq/=.
Defined.

(** X16. When the window is bound to a single pair, a character with
    probability [1.0], sampling never fails: for every draw below [1.0], as
    [random()] returns them, the running value [x - 1.0] is [<= 0] and
    [generate_letter] returns that character, after one draw. *)
Theorem generate_letter_single_successor lm history order g c :
  lm !! py_slice_from history (- order) = Some [(c, 1%float)] →
  (draws g (used g) <? 1)%float = true →
  generate_letter lm history order g = Ok (Some c, Rng (draws g) (S (used g))).
Proof.
  intros Hlm Hx. unfold generate_letter, random. rewrite Hlm. simpl.
  by rewrite float_sub_one_nonpos.
Qed.

Lemma generate_letter_single_successor_witness :
  generate_letter lm_ab (str "~a") 1 rng_half
  = Ok (Some "b"%char, Rng (draws rng_half) (S (used rng_half))).
Proof.
  apply (generate_letter_single_successor lm_ab (str "~a") 1 rng_half "b"%char);
    vm_compute; reflexivity.
Defined.

(** ** The first character, and a corpus that is replayed *)

(** X17. When the corpus does not contain the sentinel, the all-sentinel
    history was observed once, before the first character of the corpus. So
    generating one character returns that character, and every generated text
    of at least one character begins with it. *)
Theorem train_and_generate_first_character c0 rest order g :
  1 ≤ order → py_len (c0 :: rest) ≤ sys_maxsize → sentinel ∉ c0 :: rest →
  (draws g (used g) <? 1)%float = true →
  train_and_generate (c0 :: rest) order 1 g = Ok ([c0], Rng (draws g) (S (used g))) ∧
  ∀ n s g', 1 ≤ n → train_and_generate (c0 :: rest) order n g = Ok (s, g') →
            take 1 s = [c0].
Proof.
  intros Ho Hmax Hsent Hx.
  set (o := Z.to_nat order). set (pad := replicate o sentinel).
  destruct (train_char_lm_single (c0 :: rest) o pad c0 Hmax) as (lm & Hlm & Hpad).
  { destruct (ref_transitions_head c0 rest o) as (ts & Hts).
    apply ref_observed_elem. rewrite Hts. left. }
  { intros c' (_ & pre & post & Hp)%ref_observed_elem%ref_transitions_elem.
    unfold ref_padded in Hp. fold pad in Hp.
    destruct pre as [|p pre].
    - simpl in Hp. apply app_inv_head in Hp. congruence.
    - exfalso. apply Hsent.
      assert ((pad ++ c0 :: rest) !! (length (p :: pre) + (o - 1))%nat = Some sentinel)
        as Hl.
      { rewrite Hp. rewrite lookup_app_r by lia.
        replace (length (p :: pre) + (o - 1) - length (p :: pre))%nat with (o - 1)%nat by lia.
        rewrite lookup_app_l by (unfold pad; rewrite length_replicate; lia).
        apply lookup_replicate_2. lia. }
      rewrite lookup_app_r in Hl by (unfold pad; rewrite length_replicate; simpl; lia).
      by apply list_elem_of_lookup_2 in Hl. }
  unfold o in Hlm. rewrite Z2Nat.id in Hlm by lia.
  assert (generate_loop lm order 1 g
          = Ok (GenState (pad ++ [c0]) [c0] (Rng (draws g) (S (used g))))) as Hone.
  { unfold generate_loop, py_range. rewrite seqZ_cons by lia. simpl.
    unfold generate_step, generate_letter, random. simpl.
    rewrite py_slice_from_last by done. unfold py_str_mul.
    rewrite length_replicate, Nat.sub_diag. simpl. fold o. fold pad. rewrite !drop_0, Hpad.
    simpl. by rewrite float_sub_one_nonpos. }
  unfold train_and_generate. rewrite Hlm. simpl. split.
  - unfold generate_text. by rewrite Hone.
  - intros n s g' Hn. unfold generate_text.
    destruct (generate_loop lm order n g) as [st|e] eqn:Hrun; [|done]. simpl.
    intros [= <- <-].
    destruct (generate_loop_take lm order 1 n g st ltac:(lia) Hrun) as (st0 & H0 & Hout).
    rewrite Hone in H0. injection H0 as <-. done.
Qed.

Lemma train_and_generate_first_character_witness :
  train_and_generate ("a"%char :: str "b") 1 1 rng_half
  = Ok (["a"%char], Rng (draws rng_half) (S (used rng_half))) ∧
  ∀ n s g', 1 ≤ n → train_and_generate ("a"%char :: str "b") 1 n rng_half = Ok (s, g') →
            take 1 s = ["a"%char].
Proof.
  apply (train_and_generate_first_character "a"%char (str "b") 1 rng_half);
    [lia | vm_compute; discriminate | | reflexivity].
  intros Hin. by repeat (apply elem_of_cons in Hin as [?|Hin]; [done|]);
    apply elem_of_nil in Hin.
Defined.

(** The window after [n] characters of the corpus have been put out. *)
Lemma drop_pad_take {A : Type} (pad contents : list A) (n : nat) :
  (n ≤ length contents)%nat →
  drop n (pad ++ take n contents) = take (length pad) (drop n (pad ++ contents)).
Proof.
  intros Hn. rewrite take_drop_commute. f_equal.
  by rewrite Nat.add_comm, take_app_add.
Qed.

(** X18. A corpus whose windows of [order] characters (in the padded
    corpus, the final one included) are pairwise distinct is replayed: asking
    for [n] characters, with [n] at most the length of the corpus, returns
    its first [n] characters, and asking for more raises [KeyError], since
    the window after the last character was never observed with a successor. *)
Theorem train_and_generate_replay contents order g :
  1 ≤ order → py_len contents ≤ sys_maxsize →
  NoDup ((λ i, take (Z.to_nat order) (drop i (py_str_mul sentinel order ++ contents)))
         <$> seq 0 (S (length contents))) →
  (∀ i, (draws g i <? 1)%float = true) →
  (∀ n, 0 ≤ n ≤ py_len contents →
        train_and_generate contents order n g
        = Ok (take (Z.to_nat n) contents, Rng (draws g) (used g + Z.to_nat n))) ∧
  (∀ n, py_len contents < n →
        train_and_generate contents order n g = Raise KeyError).
Proof.
  intros Ho Hmax Hnd Hx.
  set (o := Z.to_nat order) in *. set (pad := py_str_mul sentinel order) in *.
  assert (length pad = o) as Hpad.
  { unfold pad, py_str_mul. by rewrite length_replicate. }
  set (padded := pad ++ contents) in *. set (L := length contents) in *.
  set (W := λ k, take o (drop k padded)) in *.
  assert (∀ j k, (j ≤ L)%nat → (k ≤ L)%nat → W j = W k → j = k) as Hinj.
  { intros j k Hj Hk Heq. apply (NoDup_lookup _ j k (W j) Hnd).
    - rewrite list_lookup_fmap, lookup_seq_lt by lia. done.
    - rewrite list_lookup_fmap, lookup_seq_lt by lia. simpl. by rewrite <- Heq. }
  assert (ref_padded contents o = padded) as Hpadded by done.
  assert (∀ h c, c ∈ ref_observed contents o h →
            ∃ j, (j < L)%nat ∧ h = W j ∧ contents !! j = Some c) as Hocc.
  { intros h c (Hlen & pre & post & Hp)%ref_observed_elem%ref_transitions_elem.
    rewrite Hpadded in Hp. exists (length pre).
    assert (length padded = (o + L)%nat) as Hl.
    { unfold padded. rewrite length_app. lia. }
    assert (length pre < L)%nat as Hlt.
    { rewrite Hp, !length_app in Hl. simpl in Hl. lia. }
    split; [done|]. split.
    - unfold W. rewrite Hp, drop_app_length. by rewrite take_app_length'.
    - assert (padded !! (o + length pre)%nat = Some c) as Hc.
      { rewrite Hp. rewrite lookup_app_r by lia. rewrite lookup_app_r by lia.
        by replace (o + length pre - length pre - length h)%nat with 0%nat by lia. }
      unfold padded in Hc. rewrite lookup_app_r in Hc by lia.
      by replace (o + length pre - length pad)%nat with (length pre) in Hc by lia. }
  destruct (train_char_lm_chars contents o Hmax) as (lm & Hlm & Hnone & _).
  assert (∀ k c, contents !! k = Some c → lm !! W k = Some [(c, 1%float)]) as Hsingle.
  { intros k c Hk. pose proof (lookup_lt_Some _ _ _ Hk) as Hlt.
    destruct (train_char_lm_single contents o (W k) c Hmax) as (lm' & Hlm' & Hk').
    - apply ref_observed_elem, ref_transitions_elem. split.
      { unfold W, padded. rewrite length_take, length_drop, length_app. lia. }
      exists (take k padded), (drop (S (k + o)) padded). rewrite Hpadded.
      unfold W. rewrite app_assoc, take_take_drop. rewrite take_drop_middle; [done|].
      unfold padded. rewrite lookup_app_r by lia.
      by replace (k + o - length pad)%nat with k by lia.
    - intros c' (j & Hj & HW & Hc')%Hocc.
      apply Hinj in HW; [|lia..]. subst j. congruence.
    - rewrite Hlm in Hlm'. by injection Hlm' as <-. }
  assert (lm !! W L = None) as Hlast.
  { apply Hnone. destruct (ref_observed contents o (W L)) as [|c cs] eqn:Hobs; [done|].
    destruct (Hocc (W L) c) as (j & Hj & HW & _); [rewrite Hobs; left|].
    apply Hinj in HW; lia. }
  unfold o in Hlm. rewrite Z2Nat.id in Hlm by lia. fold o in Hlm.
  assert (∀ n, (n ≤ L)%nat →
            ∃ st, generate_loop lm order (Z.of_nat n) g = Ok st ∧
                  py_slice_from (gs_history st) (- order) = W n ∧
                  gs_out st = take n contents ∧
                  gs_rng st = Rng (draws g) (used g + n)) as Hloop.
  { assert (∀ n st, (n ≤ L)%nat →
                  generate_loop lm order (Z.of_nat n) g = Ok st →
                  gs_out st = take n contents →
                  py_slice_from (gs_history st) (- order) = W n) as Hwin.
    { intros n st Hn Hst Hout.
      rewrite (generate_loop_window lm order (Z.of_nat n) g st Ho ltac:(lia) Hst).
      rewrite Hout, length_take. fold pad.
      replace (n `min` length contents)%nat with n by (fold L; lia).
      unfold W, padded. rewrite drop_pad_take by done. by rewrite Hpad. }
    intros n Hn. induction n as [|n IH].
    - exists (GenState pad [] g). split; [apply generate_loop_0|].
      split; [by apply (Hwin 0%nat (GenState pad [] g))|]. split; [done|].
      destruct g; simpl. f_equal. lia.
    - destruct IH as (st & Hst & Hw & Hout & Hrng); [lia|].
      destruct (lookup_lt_is_Some_2 contents n ltac:(fold L; lia)) as [c Hc].
      assert (generate_step lm order st
              = Ok (GenState (W n ++ [c]) (take (S n) contents)
                      (Rng (draws g) (used g + S n)))) as Hstep.
      { unfold generate_step, generate_letter, random.
        rewrite Hw, (Hsingle n c Hc), Hrng. simpl.
        rewrite float_sub_one_nonpos by apply Hx. simpl.
        rewrite Hout, (take_S_r _ _ c Hc). do 3 f_equal. lia. }
      eexists. split.
      { rewrite Nat2Z.inj_succ. unfold Z.succ.
        rewrite generate_loop_succ by lia. rewrite Hst. simpl. exact Hstep. }
      simpl. split; [|done].
      apply (Hwin (S n) (GenState (W n ++ [c]) (take (S n) contents)
                        (Rng (draws g) (used g + S n)))); [done| |done].
      rewrite Nat2Z.inj_succ. unfold Z.succ.
      rewrite generate_loop_succ by lia. rewrite Hst. simpl. exact Hstep. }
  unfold train_and_generate. rewrite Hlm. simpl. unfold generate_text. split.
  - intros n Hn. destruct (Hloop (Z.to_nat n)) as (st & Hst & _ & Hout & Hrng).
    { unfold py_len in Hn. fold L in Hn. lia. }
    rewrite Z2Nat.id in Hst by lia. rewrite Hst. simpl. by rewrite Hout, Hrng.
  - intros n Hn. destruct (Hloop L) as (st & Hst & Hw & _); [done|].
    rewrite (generate_loop_raise lm order (Z.of_nat L + 1) n g KeyError); [done| |].
    { unfold py_len in Hn. fold L in Hn. lia. }
    rewrite generate_loop_succ by lia. rewrite Hst. simpl.
    unfold generate_step, generate_letter. by rewrite Hw, Hlast.
Qed.

Lemma train_and_generate_replay_witness :
  (∀ n, 0 ≤ n ≤ py_len (str "abc") →
        train_and_generate (str "abc") 1 n rng_half
        = Ok (take (Z.to_nat n) (str "abc"),
              Rng (draws rng_half) (used rng_half + Z.to_nat n))) ∧
  (∀ n, py_len (str "abc") < n →
        train_and_generate (str "abc") 1 n rng_half = Raise KeyError).
Proof.
  apply (train_and_generate_replay (str "abc") 1 rng_half);
    [lia | vm_compute; discriminate | | intros i; reflexivity].
  apply (bool_decide_unpack _). vm_compute. reflexivity.
Defined.
